(** * The socket layer of lib/Socket/socket.js

    A shallow embedding of [makeSocket] and of the closures it returns
    ([generateMessageTag], [sendRawMessage], [sendNode], [onUnexpectedError],
    [awaitNextMessage], the 'CB:ib,,offline' and 'creds.update' handlers and
    the [user] accessor), followed by the properties the design document
    states about them. *)

From Stdlib Require Import ZArith NArith Ascii String List Lia.
From stdpp Require Import base decidable option list strings pretty gmap fin_maps.

Local Open Scope string_scope.
Local Open Scope list_scope.
Local Open Scope N_scope.

(* ===================================================================== *)
(** * Part I: the embedding                                                *)
(* ===================================================================== *)

(** ** JavaScript numbers and strings, as far as the socket uses them *)

(** Every integer up to [2^53] is a double.  [epoch++] adds one in double
    arithmetic: the sum is exact below [2^53], and [2^53 + 1], which lies
    halfway between the doubles [2^53] and [2^53 + 2], rounds to the even
    mantissa, [2^53].  [js_incr] is that increment on the values a counter
    started at [1] takes. *)
Definition MAX_EXACT : N := 2 ^ 53.

Definition js_incr (n : N) : N :=
  if decide (n < MAX_EXACT) then n + 1 else n.

(** ** Message tags: [epoch], [uqTagId], [generateMessageTag] *)

(** The two variables [generateMessageTag] closes over.  [uqTagId] is the
    result of [generateMdTagPrefix()], [epoch] starts at [1]. *)
Record tagger := Tagger { uqTagId : string; epoch : N }.

Definition new_tagger (prefix : string) : tagger :=
  {| uqTagId := prefix; epoch := 1 |}.

(** [() => `${uqTagId}${epoch++}`]: the tag is built from the value of
    [epoch] before the increment. *)
Definition generateMessageTag (t : tagger) : string * tagger :=
  (uqTagId t +:+ pretty (epoch t),
   {| uqTagId := uqTagId t; epoch := js_incr (epoch t) |}).

(** The handle after [k] calls, and the tag the call after those returns. *)
Definition after_calls (k : N) (t : tagger) : tagger :=
  N.iter k (fun t' => snd (generateMessageTag t')) t.

Definition nth_tag (t : tagger) (k : N) : string :=
  fst (generateMessageTag (after_calls k t)).

(** The tags of [n] successive calls, in order. *)
Fixpoint tags (n : nat) (t : tagger) : list string :=
  match n with
  | O => []
  | S n' => let '(tag, t') := generateMessageTag t in tag :: tags n' t'
  end.

(** A [number] as a configuration field can hold it: an integral value or
    one of the three special doubles. *)
Inductive num := Fin (z : Z) | PosInf | NegInf | NaN.

Global Instance num_eq_dec : EqDecision num.
Proof. solve_decision. Defined.

(** ToBoolean on numbers: [0] and [NaN] are falsy. *)
Definition num_truthy (x : num) : bool :=
  match x with
  | Fin z => negb (z =? 0)%Z
  | NaN => false
  | PosInf | NegInf => true
  end.

(** [Math.min(a, x)] for an integral [a]. *)
Definition Math_min (a : Z) (x : num) : num :=
  match x with
  | Fin z => Fin (Z.min a z)
  | PosInf => Fin a
  | NegInf => NegInf
  | NaN => NaN
  end.

(** [x <= b] on numbers; every comparison with [NaN] is false. *)
Definition num_le (x : num) (b : Z) : Prop :=
  match x with
  | Fin z => (z <= b)%Z
  | NegInf => True
  | PosInf | NaN => False
  end.

(** [String.prototype.toLowerCase] on the ASCII letters; the texts matched
    below are ASCII. *)
Definition lower_ascii (c : ascii) : ascii :=
  let n := N_of_ascii c in
  if (65 <=? n) && (n <=? 90) then ascii_of_N (n + 32) else c.

Fixpoint toLowerCase (s : string) : string :=
  match s with
  | EmptyString => EmptyString
  | String c s' => String (lower_ascii c) (toLowerCase s')
  end.

(** [hay.includes(needle)] *)
Fixpoint includes (needle hay : string) : bool :=
  String.prefix needle hay ||
  match hay with
  | EmptyString => false
  | String _ hay' => includes needle hay'
  end.

(** ToBoolean on strings. *)
Definition str_truthy (s : string) : bool :=
  match s with EmptyString => false | _ => true end.

(** ** Errors *)

(** The value of a property such as [err.stack]: missing or [undefined], a
    string, or any other value, of which the code can see whether it is
    truthy and how a template literal prints it. *)
Inductive js_field :=
| FUndefined
| FString (s : string)
| FOther (truthy : bool) (shown : string).

(** ToBoolean on a property. *)
Definition field_truthy (f : js_field) : bool :=
  match f with
  | FUndefined => false
  | FString s => str_truthy s
  | FOther b _ => b
  end.

(** The property as a receiver of [toLowerCase]: a string has that method,
    no other value does. *)
Definition field_text (f : js_field) : option string :=
  match f with
  | FString s => Some s
  | _ => None
  end.

(** [`${f}`] *)
Definition field_shown (f : js_field) : string :=
  match f with
  | FUndefined => "undefined"
  | FString s => s
  | FOther _ shown => shown
  end.

(** A truthy value that is not a string, as the code reads it: [stack],
    [message] and the result of [String(err)], which is [None] when the
    conversion throws, as it does for an object without [toString]. *)
Record error_obj := ErrorObj {
  e_stack : js_field;
  e_message : js_field;
  e_string : option string
}.

(** A value caught and handed to [onUnexpectedError]. *)
Inductive js_error :=
| ErrFalsy                      (* null, undefined, 0, false, NaN *)
| ErrString (s : string)
| ErrObject (o : error_obj).    (* any other truthy value *)

(** What this file throws or rejects with. *)
Inductive exn :=
| Boom (message : string) (statusCode : N)
| TypeError (message : string)
| Foreign (o : error_obj).      (* an error raised by a collaborator *)

Inductive result (A : Type) :=
| Ok (a : A)
| Throw (e : exn).
Arguments Ok {A} a.
Arguments Throw {A} e.

(** A promise once the event loop has run it to the end. *)
Inductive settled (A : Type) :=
| Fulfilled (a : A)
| Rejected (e : exn).
Arguments Fulfilled {A} a.
Arguments Rejected {A} e.

(** ** URLs, binary nodes, credentials *)

(** A WHATWG [URL]: the scheme is stored without its colon, and the
    [protocol] getter returns the scheme followed by [":"]. *)
Record URL := MkURL {
  scheme : string;
  hostpath : string;
  searchParams : list (string * string)
}.

Definition protocol (u : URL) : string := scheme u +:+ ":".

(** [url.searchParams.append(k, v)] *)
Definition searchParams_append (k v : string) (u : URL) : URL :=
  {| scheme := scheme u; hostpath := hostpath u;
     searchParams := searchParams u ++ [(k, v)] |}.

Definition bytes := list Byte.byte.

#[warnings="-register-all"]
Inductive BinaryNode :=
| Node (tag : string) (attrs : list (string * option string))
       (content : list BinaryNode).

Definition node_tag (n : BinaryNode) : string :=
  match n with Node t _ _ => t end.
Definition node_attrs (n : BinaryNode) : list (string * option string) :=
  match n with Node _ a _ => a end.
Definition node_content (n : BinaryNode) : list BinaryNode :=
  match n with Node _ _ c => c end.

(** [attrs[k]]: the first binding of [k]; absent and [undefined] read the
    same. *)
Fixpoint attr (k : string) (a : list (string * option string)) : option string :=
  match a with
  | [] => None
  | (k', v) :: a' => if decide (k' = k) then v else attr k a'
  end.

(** A contact, the type of [creds.me]. *)
Record Contact := MkContact { c_id : string; c_name : option string }.

(** The values a credentials field holds. *)
Inductive value :=
| VUndefined
| VNull
| VBool (b : bool)
| VNum (n : num)
| VStr (s : string)
| VBuffer (b : bytes)
| VContact (c : Contact)
| VObject (ref : N).            (* any other object, by reference *)

(** An object is a finite map from property names to values; the heap
    maps references to objects. *)
Abbreviation obj := (gmap string value).
Abbreviation loc := N (only parsing).

(** [o.me?.name]: [undefined] unless [me] is a contact with a name. *)
Definition me_name (o : obj) : option string :=
  match o !! "me" with
  | Some (VContact c) => c_name c
  | _ => None
  end.

(** [creds.routingInfo], a [Buffer] when present. *)
Definition routingInfo_of (o : obj) : option bytes :=
  match o !! "routingInfo" with
  | Some (VBuffer b) => Some b
  | _ => None
  end.

(** [Object.assign(target, source)]: every own property of [source] is
    written to [target]; the other properties of [target] stay. *)
Definition Object_assign (target source : obj) : obj := source ∪ target.

(** The argument of a web socket event: a frame, or whatever a 'close' or
    'error' event carries. *)
Inductive ws_arg :=
| ArgFrame (frame : bytes)
| ArgError (e : js_error).

(** ** Collaborators

    Modules the socket requires and that are not part of this file:
    constants of [Types.DisconnectReason], the codec of [WABinary], the noise
    handler and helpers of [Utils], Node's [URL] parser and [Buffer]
    encoder. *)
Class Collaborators := {
  DisconnectReason_loggedOut : N;
  DisconnectReason_connectionClosed : N;
  DisconnectReason_timedOut : N;
  (** [new URL(s)]; [None] when the constructor throws *)
  URL_parse : string -> option URL;
  (** [buf.toString('base64url')] *)
  base64url : bytes -> string;
  encodeBinaryNode : BinaryNode -> bytes;
  binaryNodeToString : BinaryNode -> string;
  (** [getBinaryNodeChild(node, tag)] *)
  getBinaryNodeChild : BinaryNode -> string -> option BinaryNode;
  (** [getCodeFromWSError(error)] *)
  getCodeFromWSError : ws_arg -> N;
  (** unary [+] on a string *)
  ToNumber : string -> num;
  NoiseState : Type;
  (** [noise.encodeFrame(data)]: the frame and the handler's next state, or
      the error it throws *)
  noise_encodeFrame : NoiseState -> bytes -> exn + bytes * NoiseState
}.

(** ** The socket's state and its effects *)

Inductive level := error | warn | info | debug | trace.

(** The calls to the logger, by what they report. *)
Inductive log_entry :=
| LogUnexpected (err : js_error) (msg : string)
| LogReuploadFailed (e : exn)
| LogBackoff (wait : num)
| LogXmlSend (xml : string)
| LogHandledOffline (offlineNotifs : num)
| LogFlushed
| LogPushName (name : option string)
| LogPresenceError (err : exn).

(** The calls the socket makes on its collaborators. *)
Inductive effect :=
| NewWebSocketClient (url : URL)
| WsConnect
| WsSend (frame : bytes)
| MakeEventBuffer
| GenerateKeyPair
| MakeNoiseHandler (routingInfo : option bytes)
| AddTransactionCapability
| MakeSignalRepository
| EvBuffer
| EvFlush
| EvEmit (name : string) (payload : list (string * value))
| Log (l : level) (e : log_entry)
| UploadPreKeysToServerIfRequired (force : bool).

(** The functions registered on the web socket: the two closures of one
    [awaitNextMessage] call, numbered by the call, and everybody else's. *)
Inductive listener :=
| onOpen (call : N)
| onClose (call : N)
| other_listener (n : N).

Global Instance listener_eq_dec : EqDecision listener.
Proof. solve_decision. Defined.

Record ws_client := WsClient {
  isOpen : bool;
  (** registrations in the order they were made *)
  handlers : list (string * listener)
}.

Inductive callback := EmptyCallback.

Record timer := Timer { t_set_at : N; t_delay : num; t_callback : callback }.

Record AuthenticationState := { auth_creds : loc; auth_keys : N }.

Record SocketConfig := {
  waWebSocketUrl : string + URL;
  mobile : bool;
  backoffDelayMs : option num;
  logger_level : string;
  auth : AuthenticationState
}.

Section Socket.
Context `{Collaborators}.

(** The variables the closures of [makeSocket] share, with the part of the
    world they act on. *)
Record sock := Sock {
  config : SocketConfig;
  ws : ws_client;
  tagging : tagger;
  didStartBuffer : bool;
  noise : NoiseState;
  (** the constant [creds] *)
  creds : loc;
  (** the property [authState.creds], read again at every access *)
  authState_creds : loc;
  heap : gmap N (gmap string value);
  (** the clock, and the timers set so far by the calls of [setTimeout] in
      the source; what [promiseTimeout], which is not in the source, sets up
      for its deadline is not among them *)
  now : N;
  timers : list timer;
  (** the calls made so far, oldest first *)
  calls : list effect;
  (** the calls made by promise reactions, which run after the current job *)
  reactions : list effect
}.

Definition set_ws (f : ws_client -> ws_client) (s : sock) : sock :=
  Sock (config s) (f (ws s)) (tagging s) (didStartBuffer s) (noise s) (creds s)
       (authState_creds s) (heap s) (now s) (timers s) (calls s) (reactions s).
Definition set_didStartBuffer (b : bool) (s : sock) : sock :=
  Sock (config s) (ws s) (tagging s) b (noise s) (creds s)
       (authState_creds s) (heap s) (now s) (timers s) (calls s) (reactions s).
Definition set_noise (n : NoiseState) (s : sock) : sock :=
  Sock (config s) (ws s) (tagging s) (didStartBuffer s) n (creds s)
       (authState_creds s) (heap s) (now s) (timers s) (calls s) (reactions s).
Definition set_heap (f : gmap N (gmap string value) -> gmap N (gmap string value))
    (s : sock) : sock :=
  Sock (config s) (ws s) (tagging s) (didStartBuffer s) (noise s) (creds s)
       (authState_creds s) (f (heap s)) (now s) (timers s) (calls s) (reactions s).
Definition set_timers (f : list timer -> list timer) (s : sock) : sock :=
  Sock (config s) (ws s) (tagging s) (didStartBuffer s) (noise s) (creds s)
       (authState_creds s) (heap s) (now s) (f (timers s)) (calls s) (reactions s).
Definition set_now (t : N) (s : sock) : sock :=
  Sock (config s) (ws s) (tagging s) (didStartBuffer s) (noise s) (creds s)
       (authState_creds s) (heap s) t (timers s) (calls s) (reactions s).
Definition set_calls (f : list effect -> list effect) (s : sock) : sock :=
  Sock (config s) (ws s) (tagging s) (didStartBuffer s) (noise s) (creds s)
       (authState_creds s) (heap s) (now s) (timers s) (f (calls s)) (reactions s).
Definition set_reactions (f : list effect -> list effect) (s : sock) : sock :=
  Sock (config s) (ws s) (tagging s) (didStartBuffer s) (noise s) (creds s)
       (authState_creds s) (heap s) (now s) (timers s) (calls s) (f (reactions s)).

(** Code that reads and writes the socket and may throw. *)
Definition M (A : Type) : Type := sock -> result A * sock.

#[export] Instance M_ret : MRet M := fun A a s => (Ok a, s).
#[export] Instance M_bind : MBind M := fun A B f m s =>
  match m s with
  | (Ok a, s') => f a s'
  | (Throw e, s') => (Throw e, s')
  end.

Definition throw {A} (e : exn) : M A := fun s => (Throw e, s).
Definition gets {A} (f : sock -> A) : M A := fun s => (Ok (f s), s).
Definition modify (f : sock -> sock) : M unit := fun s => (Ok tt, f s).
Definition perform (e : effect) : M unit := modify (set_calls (fun l => l ++ [e])).
Definition react (e : effect) : M unit := modify (set_reactions (fun l => l ++ [e])).
Definition when (b : bool) (m : M unit) : M unit := if b then m else mret tt.

(** [setTimeout(cb, ms)] *)
Definition setTimeout (cb : callback) (ms : num) : M unit :=
  modify (fun s => set_timers (fun l => l ++ [Timer (now s) ms cb]) s).

(** ** [makeSocket] *)

(** [typeof waWebSocketUrl === 'string' ? new URL(waWebSocketUrl) : waWebSocketUrl] *)
Definition resolve_url (u : string + URL) : option URL :=
  match u with
  | inl s => URL_parse s
  | inr url => Some url
  end.

(** What the environment hands to a new socket: the heap the credentials
    live in, the result of [generateMdTagPrefix()], the state of the fresh
    noise handler, the client as [new WebSocketClient] and [connect()] leave
    it, and the clock. *)
Record world := World {
  w_heap : gmap N (gmap string value);
  w_prefix : string;
  w_noise : NoiseState;
  w_ws : ws_client;
  w_now : N
}.

(** The body of [makeSocket] down to the declaration of the closures.  The
    result pairs the calls made with the socket, or with what was thrown.
    [didStartBuffer] is declared in a part of the function the source does
    not show; it is taken to start out false. *)
Definition makeSocket (config : SocketConfig) (w : world) : list effect * result sock :=
  match resolve_url (waWebSocketUrl config) with
  | None => ([], Throw (TypeError "Invalid URL"))
  | Some url =>
    if mobile config || String.eqb (protocol url) "tcp:" then
      ([], Throw (Boom "Mobile API is not supported anymore" DisconnectReason_loggedOut))
    else
      let routingInfo := w_heap w !! auth_creds (auth config) ≫= routingInfo_of in
      let url' :=
        if String.eqb (protocol url) "wss" then
          match routingInfo with
          | Some ri => searchParams_append "ED" (base64url ri) url
          | None => url
          end
        else url in
      let made :=
        [NewWebSocketClient url'; WsConnect; MakeEventBuffer; GenerateKeyPair;
         MakeNoiseHandler routingInfo; AddTransactionCapability;
         MakeSignalRepository] in
      (made,
       Ok {| config := config; ws := w_ws w;
             tagging := new_tagger (w_prefix w);
             didStartBuffer := false;
             noise := w_noise w;
             creds := auth_creds (auth config);
             authState_creds := auth_creds (auth config);
             heap := w_heap w; now := w_now w; timers := [];
             calls := made; reactions := [] |})
  end.

(** [get user() { return authState.creds.me }] *)
Definition user (s : sock) : value :=
  default VUndefined (heap s !! authState_creds s ≫= (.!! "me")).

(** The transport opens: from then on [ws.isOpen] is true. *)
Definition ws_opened (s : sock) : sock :=
  set_ws (fun c => {| isOpen := true; handlers := handlers c |}) s.

(** ** Sending *)

(** What becomes of one [ws.send(bytes, callback)]: the callback is called
    without or with an error, or not at all. *)
Inductive send_outcome :=
| SendDone
| SendFailed (o : error_obj)
| SendPending.

(** Modelled from the spec: [promiseTimeout] of lib/Utils is not part of the
    source.  The design document gives the wrapped operation the failure mode
    Timeout: an operation that "does not complete within its deadline" fails
    with it.  [inner] is the outcome of the wrapped executor, [None] when it
    never settles. *)
Definition promiseTimeout {A} (inner : option (settled A)) : settled A :=
  match inner with
  | Some r => r
  | None => Rejected (Boom "Timed Out" DisconnectReason_timedOut)
  end.

(** [sendRawMessage(data)]: an async function, so what it throws rejects the
    promise it returns. *)
Definition sendRawMessage (data : bytes) (o : send_outcome) : M (settled unit) :=
  open ← gets (fun s => isOpen (ws s));
  if negb open then
    mret (Rejected (Boom "Connection Closed" DisconnectReason_connectionClosed))
  else
    n ← gets noise;
    match noise_encodeFrame n data with
    | inl e => mret (Rejected e)
    | inr (frame, n') =>
        modify (set_noise n');;
        perform (WsSend frame);;
        mret (promiseTimeout
                match o with
                | SendDone => Some (Fulfilled tt)
                | SendFailed e => Some (Rejected (Foreign e))
                | SendPending => None
                end)
    end.

(** [sendNode(frame)] *)
Definition sendNode (frame : BinaryNode) (o : send_outcome) : M (settled unit) :=
  lvl ← gets (fun s => logger_level (config s));
  when (String.eqb lvl "trace")
       (perform (Log trace (LogXmlSend (binaryNodeToString frame))));;
  sendRawMessage (encodeBinaryNode frame) o.

(** ** [onUnexpectedError] *)

(** [(err && ((err.stack || err.message) || String(err)))], when that is
    a string.  It is none for a falsy [err] other than the empty string, for
    a [stack] that is truthy and not a string, for a [message] that is so
    under a falsy [stack], and when neither is truthy and [String(err)]
    throws. *)
Definition error_text (err : js_error) : option string :=
  match err with
  | ErrFalsy => None
  | ErrString s => Some s
  | ErrObject o =>
      if field_truthy (e_stack o) then field_text (e_stack o)
      else if field_truthy (e_message o) then field_text (e_message o)
      else e_string o
  end.

(** What line 81 throws when it yields no string: the [TypeError] of the
    call of [toLowerCase], or the one of [String(err)]. *)
Definition line81_error (err : js_error) : exn :=
  match err with
  | ErrObject o =>
      if field_truthy (e_stack o) || field_truthy (e_message o)
      then TypeError "toLowerCase"
      else TypeError "String"
  | _ => TypeError "toLowerCase"
  end.

Definition is_bad_mac (message : string) : bool :=
  includes "bad mac" message || (includes "mac" message && includes "invalid" message).

Definition is_rate_limit (message : string) : bool :=
  includes "429" message || includes "rate limit" message.

(** [config.backoffDelayMs || 5000] *)
Definition backoff_or_default (c : SocketConfig) : num :=
  match backoffDelayMs c with
  | Some x => if num_truthy x then x else Fin 5000
  | None => Fin 5000
  end.

(** The delay in the design document's words: [min(30000, base)], the base
    being the configured value, or [5000] when none is configured. *)
Definition documented_backoff (c : SocketConfig) : num :=
  Math_min 30000 (default (Fin 5000) (backoffDelayMs c)).

(** What a call of [uploadPreKeysToServerIfRequired(true)] does: throw, or
    return a promise that is fulfilled, rejected or left pending. *)
Inductive upload_outcome :=
| UploadThrows (e : exn)
| UploadSettles (r : option (settled unit)).

Definition onUnexpectedError (err : js_error) (msg : string) (up : upload_outcome)
    : M unit :=
  perform (Log error (LogUnexpected err msg));;
  match error_text err with
  | None => throw (line81_error err)
  | Some text =>
      let message := toLowerCase text in
      when (is_bad_mac message)
           (perform (UploadPreKeysToServerIfRequired true);;
            match up with
            | UploadSettles (Some (Rejected e)) =>
                react (Log warn (LogReuploadFailed e))
            | _ => mret tt
            end);;
      when (is_rate_limit message)
           (c ← gets config;
            let wait := Math_min 30000 (backoff_or_default c) in
            perform (Log info (LogBackoff wait));;
            setTimeout EmptyCallback wait)
  end.

(** ** Event handlers *)

(** Lines 122-129 of the source, the callback that announces the connection
    attempt.  Its head is cut off in the source; the guard is the one the
    text shows. *)
Definition announce_connecting (sendMsg : bool) : M unit :=
  when sendMsg (perform EvBuffer;; modify (set_didStartBuffer true));;
  perform (EvEmit "connection.update"
             [("connection", VStr "connecting");
              ("receivedPendingNotifications", VBool false);
              ("qr", VUndefined)]).

(** [+((child?.attrs.count) || 0)] *)
Definition offline_count (node : BinaryNode) : num :=
  match getBinaryNodeChild node "offline" ≫= (fun c => attr "count" (node_attrs c)) with
  | Some s => if str_truthy s then ToNumber s else Fin 0
  | None => Fin 0
  end.

(** [ws.on('CB:ib,,offline', (node) => ...)] *)
Definition on_offline (node : BinaryNode) : M unit :=
  perform (Log info (LogHandledOffline (offline_count node)));;
  started ← gets didStartBuffer;
  when started (perform EvFlush;; perform (Log trace LogFlushed));;
  perform (EvEmit "connection.update" [("receivedPendingNotifications", VBool true)]).

(** [creds.me?.name] for the constant [creds] *)
Definition creds_name (s : sock) : option string :=
  heap s !! creds s ≫= me_name.

(** [ev.on('creds.update', update => ...)] *)
Definition on_creds_update (update : gmap string value) (o : send_outcome) : M unit :=
  let name := me_name update in
  current ← gets creds_name;
  when (bool_decide (current ≠ name))
       (perform (Log debug (LogPushName name));;
        sent ← sendNode (Node "presence" [("name", name)] []) o;
        match sent with
        | Rejected err => react (Log warn (LogPresenceError err))
        | Fulfilled _ => mret tt
        end);;
  c ← gets creds;
  modify (set_heap (alter (fun target => Object_assign target update) c)).

(** ** [awaitNextMessage] *)

(** [ws.on(event, l)] *)
Definition ws_on (event : string) (l : listener) (c : ws_client) : ws_client :=
  {| isOpen := isOpen c; handlers := handlers c ++ [(event, l)] |}.

(** [removeListener] takes out one registration, the most recent one. *)
Fixpoint remove_last {A} `{EqDecision A} (x : A) (l : list A) : list A :=
  match l with
  | [] => []
  | y :: l' =>
      if decide (x ∈ l') then y :: remove_last x l'
      else if decide (x = y) then l' else y :: l'
  end.

(** [ws.off(event, l)] *)
Definition ws_off (event : string) (l : listener) (c : ws_client) : ws_client :=
  {| isOpen := isOpen c; handlers := remove_last (event, l) (handlers c) |}.

(** The listeners [ws.emit(event, ...)] calls, in registration order. *)
Definition listeners_of (event : string) (c : ws_client) : list listener :=
  (filter (fun p => p.1 = event) (handlers c)).*2.

(** [error?.message] inside a template literal *)
Definition message_of (a : ws_arg) : string :=
  match a with
  | ArgError (ErrObject o) => field_shown (e_message o)
  | _ => "undefined"
  end.

(** What [mapWebSocketError(reject)] rejects with. *)
Definition mapWebSocketError (a : ws_arg) : exn :=
  Boom ("WebSocket Error (" +:+ message_of a +:+ ")") (getCodeFromWSError a).

(** One call of [awaitNextMessage] in flight: the promise [result], the
    timer of [promiseTimeout] and whether the [finally] callback has run. *)
Record pending_wait := Wait {
  w_call : N;
  w_result : option (settled ws_arg);
  w_timer : bool;
  w_finally : bool
}.

(** [resolve] and [reject] act on a pending promise only. *)
Definition settle (r : settled ws_arg) (w : pending_wait) : pending_wait :=
  match w_result w with
  | None => Wait (w_call w) (Some r) (w_timer w) (w_finally w)
  | Some _ => w
  end.

(** The source down to the [finally]: the check of the transport, then the
    executor, which [promiseTimeout] runs at once.  [call] numbers the call,
    that is, names its two fresh closures.  According to the design document
    the function resolves with [result]. *)
Definition awaitNextMessage (call : N) (c : ws_client)
    : exn + ws_client * pending_wait :=
  if negb (isOpen c) then
    inl (Boom "Connection Closed" DisconnectReason_connectionClosed)
  else
    inr (ws_on "error" (onClose call)
           (ws_on "close" (onClose call)
              (ws_on "frame" (onOpen call) c)),
         Wait call None true false).

(** What happens next: the transport emits an event, the timer of
    [promiseTimeout] fires, the microtask queue is drained, or other code
    adds or removes a listener of its own. *)
Inductive step :=
| Emit (event : string) (a : ws_arg)
| TimerFires
| Microtasks
| OtherOn (event : string) (n : N)
| OtherOff (event : string) (n : N).

Definition call_listener (a : ws_arg) (w : pending_wait) (l : listener)
    : pending_wait :=
  match l with
  | onOpen c => if decide (c = w_call w) then settle (Fulfilled a) w else w
  | onClose c =>
      if decide (c = w_call w) then settle (Rejected (mapWebSocketError a)) w else w
  | other_listener _ => w
  end.

(** Modelled from the spec: [promiseTimeout] of lib/Utils is not part of the
    source.  A wait fails "with Timeout after timeoutMs" unless another
    outcome came first, and a wait that has an outcome is "removed from the
    wait set": the timer, when it fires, rejects the promise with the
    Timeout error, and it is cancelled once the promise is settled (the
    [false] that [run_finally] writes to [w_timer]). *)
Definition timer_fires (w : pending_wait) : pending_wait :=
  if w_timer w
  then settle (Rejected (Boom "Timed Out" DisconnectReason_timedOut))
         (Wait (w_call w) (w_result w) false (w_finally w))
  else w.

(** The [finally] callback of the source, run when the promise is settled;
    by then the timer is cancelled. *)
Definition run_finally (st : ws_client * pending_wait) : ws_client * pending_wait :=
  let '(c, w) := st in
  (ws_off "error" (onClose (w_call w))
     (ws_off "close" (onClose (w_call w))
        (ws_off "frame" (onOpen (w_call w)) c)),
   Wait (w_call w) (w_result w) false true).

Definition do_step (st : ws_client * pending_wait) (e : step)
    : ws_client * pending_wait :=
  let '(c, w) := st in
  match e with
  | Emit event a => (c, foldl (call_listener a) w (listeners_of event c))
  | TimerFires => (c, timer_fires w)
  | Microtasks =>
      match w_result w with
      | Some _ => if w_finally w then st else run_finally st
      | None => st
      end
  | OtherOn event n => (ws_on event (other_listener n) c, w)
  | OtherOff event n => (ws_off event (other_listener n) c, w)
  end.

Definition run (steps : list step) (st : ws_client * pending_wait)
    : ws_client * pending_wait :=
  foldl do_step st steps.

(** The first step that settles a wait whose listeners are attached. *)
Fixpoint first_outcome (steps : list step) : option (settled ws_arg) :=
  match steps with
  | [] => None
  | Emit event a :: rest =>
      if String.eqb event "frame" then Some (Fulfilled a)
      else if String.eqb event "close" || String.eqb event "error"
      then Some (Rejected (mapWebSocketError a))
      else first_outcome rest
  | TimerFires :: _ => Some (Rejected (Boom "Timed Out" DisconnectReason_timedOut))
  | _ :: rest => first_outcome rest
  end.

(** The registrations other code has made and kept. *)
Fixpoint others (steps : list step) (h : list (string * listener))
    : list (string * listener) :=
  match steps with
  | [] => h
  | OtherOn event n :: rest => others rest (h ++ [(event, other_listener n)])
  | OtherOff event n :: rest => others rest (remove_last (event, other_listener n) h)
  | _ :: rest => others rest h
  end.

(** The closures of call [call]. *)
Definition own (call : N) (p : string * listener) : Prop :=
  p.2 = onOpen call \/ p.2 = onClose call.

Global Instance own_dec call p : Decision (own call p).
Proof. unfold own. apply _. Defined.

(** The three registrations of call [call], in the order they are made. *)
Definition registered (call : N) : list (string * listener) :=
  [("frame", onOpen call); ("close", onClose call); ("error", onClose call)].

(** What holds of a wait from its start on: its closures are registered
    exactly as [awaitNextMessage] left them until the [finally] callback
    runs, and not at all afterwards; the callback runs on a settled promise
    only; the timer is set while the promise is pending. *)
Record wait_inv (call : N) (st : ws_client * pending_wait) : Prop := {
  inv_call : w_call st.2 = call;
  inv_attached : w_finally st.2 = false ->
    filter (own call) (handlers st.1) = registered call;
  inv_detached : w_finally st.2 = true ->
    filter (own call) (handlers st.1) = [] /\ w_result st.2 <> None;
  inv_timer : w_result st.2 = None -> w_timer st.2 = true
}.

End Socket.

(** ** Stand-ins for the collaborators

    Minimal collaborators on which the embedding runs: the status codes of
    [DisconnectReason], a [URL] parser, a codec that writes a node's tag,
    and a noise handler that frames without encrypting.  [show_node] prints
    a node's tag and attributes.  [parse_url] accepts a string that starts
    with a scheme (a letter, then letters, digits, [+], [-] or [.]) and a
    colon, as every string [new URL] accepts does, and rejects the others,
    the empty string among them; it lowers the scheme and leaves what follows
    the colon in one piece. *)
Definition is_alpha (c : ascii) : bool :=
  let n := N_of_ascii c in
  ((65 <=? n) && (n <=? 90)) || ((97 <=? n) && (n <=? 122)).

Definition is_scheme_char (c : ascii) : bool :=
  let n := N_of_ascii c in
  is_alpha c || ((48 <=? n) && (n <=? 57)) ||
  (n =? 43) || (n =? 45) || (n =? 46).

Fixpoint split_scheme (acc s : string) : option (string * string) :=
  match s with
  | EmptyString => None
  | String c rest =>
      if (N_of_ascii c =? 58) then Some (acc, rest)
      else if is_scheme_char c then split_scheme (acc +:+ String c "") rest
      else None
  end.

Definition parse_url (s : string) : option URL :=
  match split_scheme "" s with
  | Some (String c sch, rest) =>
      if is_alpha c
      then Some {| scheme := toLowerCase (String c sch); hostpath := rest;
                   searchParams := [] |}
      else None
  | _ => None
  end.

Definition show_node (n : BinaryNode) : string :=
  "<" +:+ node_tag n +:+
  String.concat ""
    (map (fun kv => " " +:+ kv.1 +:+ "=" +:+ default "undefined" kv.2) (node_attrs n))
  +:+ "/>".

Definition stand_in : Collaborators := {|
  DisconnectReason_loggedOut := 401;
  DisconnectReason_connectionClosed := 428;
  DisconnectReason_timedOut := 408;
  URL_parse := parse_url;
  base64url := fun b => String.string_of_list_byte b;
  encodeBinaryNode := fun n => String.list_byte_of_string (show_node n);
  binaryNodeToString := show_node;
  getBinaryNodeChild := fun n t =>
    List.find (fun c => String.eqb (node_tag c) t) (node_content n);
  getCodeFromWSError := fun _ => 500;
  ToNumber := fun _ => NaN;
  NoiseState := N;
  noise_encodeFrame := fun counter data => inr (data, counter + 1)
|}.

Definition wss_endpoint : URL :=
  {| scheme := "wss"; hostpath := "//web.whatsapp.com/ws/chat"; searchParams := [] |}.

Definition tcp_endpoint : URL :=
  {| scheme := "tcp"; hostpath := "//g.whatsapp.net:443"; searchParams := [] |}.

(** A configuration and a world to run the examples in: the credentials
    object sits at reference [1] and holds routing info and a named
    contact. *)
Definition example_config (url : URL) (mobile : bool) (backoff : option num)
    : SocketConfig :=
  {| waWebSocketUrl := inr url; mobile := mobile; backoffDelayMs := backoff;
     logger_level := "info"; auth := {| auth_creds := 1; auth_keys := 2 |} |}.

Definition example_creds : gmap string value :=
  {[ "routingInfo" := VBuffer [Byte.x08; Byte.x0c];
     "me" := VContact {| c_id := "1@s.whatsapp.net"; c_name := Some "Ada" |} ]}.

Definition example_world : @world stand_in :=
  {| w_heap := {[ 1 := example_creds ]}; w_prefix := "3EB0.";
     w_noise := 0 : @NoiseState stand_in;
     w_ws := {| isOpen := false; handlers := [] |}; w_now := 0 |}.

(** The socket [makeSocket] returns for the secure endpoint. *)
Definition example_new_sock (backoff : option num) : @sock stand_in :=
  {| config := example_config wss_endpoint false backoff;
     ws := {| isOpen := false; handlers := [] |};
     tagging := new_tagger "3EB0.";
     didStartBuffer := false;
     noise := 0 : @NoiseState stand_in;
     creds := 1; authState_creds := 1;
     heap := {[ 1 := example_creds ]}; now := 0; timers := [];
     calls := [NewWebSocketClient wss_endpoint; WsConnect; MakeEventBuffer;
               GenerateKeyPair; MakeNoiseHandler (Some [Byte.x08; Byte.x0c]);
               AddTransactionCapability; MakeSignalRepository];
     reactions := [] |}.

(** The same socket once its transport has opened. *)
Definition example_sock (backoff : option num) : @sock stand_in :=
  ws_opened (example_new_sock backoff).

(** A configuration with the mobile flag set whose endpoint is a string
    without a scheme, which [new URL] rejects. *)
Definition mobile_config_without_scheme : SocketConfig :=
  {| waWebSocketUrl := inl "web.whatsapp.com/ws/chat"; mobile := true;
     backoffDelayMs := None; logger_level := "info";
     auth := {| auth_creds := 1; auth_keys := 2 |} |}.

(** An open transport on which other code listens for the offline
    notification. *)
Definition example_client : ws_client :=
  {| isOpen := true; handlers := [("CB:ib,,offline", other_listener 0)] |}.

(** ** The socket at work

    What happens to a socket after its creation, as far as the source shows
    it: the application calls the closures [makeSocket] returned, the
    transport and the event buffer fire the handlers it registered, the
    transport opens and closes, and time passes.  A script is a sequence of
    such actions. *)

Section Scripts.
Context `{Collaborators}.

Definition set_tagging (t : tagger) (s : sock) : sock :=
  Sock (config s) (ws s) t (didStartBuffer s) (noise s) (creds s)
       (authState_creds s) (heap s) (now s) (timers s) (calls s) (reactions s).

Definition set_open (b : bool) (s : sock) : sock :=
  set_ws (fun c => {| isOpen := b; handlers := handlers c |}) s.

Inductive action :=
| CallGenerateMessageTag
| CallSendRawMessage (data : bytes) (o : send_outcome)
| CallSendNode (frame : BinaryNode) (o : send_outcome)
| CallOnUnexpectedError (err : js_error) (msg : string) (up : upload_outcome)
| FireAnnounce (sendMsg : bool)
| FireOffline (node : BinaryNode)
| FireCredsUpdate (update : gmap string value) (o : send_outcome)
| TransportOpens
| TransportCloses
| ClockAdvances (t : N).

(** The socket after one action; what a call returns or throws is dropped
    here. *)
Definition act (s : sock) (a : action) : sock :=
  match a with
  | CallGenerateMessageTag => set_tagging (generateMessageTag (tagging s)).2 s
  | CallSendRawMessage data o => (sendRawMessage data o s).2
  | CallSendNode frame o => (sendNode frame o s).2
  | CallOnUnexpectedError err msg up => (onUnexpectedError err msg up s).2
  | FireAnnounce sendMsg => (announce_connecting sendMsg s).2
  | FireOffline node => (on_offline node s).2
  | FireCredsUpdate update o => (on_creds_update update o s).2
  | TransportOpens => set_open true s
  | TransportCloses => set_open false s
  | ClockAdvances t => set_now t s
  end.

Definition run_script (script : list action) (s : sock) : sock :=
  foldl act s script.

(** The tags the calls of [generateMessageTag] in a script return, in
    order. *)
Fixpoint script_tags (script : list action) (s : sock) : list string :=
  match script with
  | [] => []
  | a :: rest =>
      match a with
      | CallGenerateMessageTag => [(generateMessageTag (tagging s)).1]
      | _ => []
      end ++ script_tags rest (act s a)
  end.

Definition is_tag_call (a : action) : bool :=
  match a with CallGenerateMessageTag => true | _ => false end.

(** The timers [onUnexpectedError] sets: the empty callback, at most 30000
    ms. *)
Definition backoff_timer (t : timer) : Prop :=
  t_callback t = EmptyCallback /\ num_le (t_delay t) 30000.

(** What no action changes, and what an action adds.  [new] are the calls of
    the action, [set] the timers it sets. *)
Record act_frame (s s' : sock) (new : list effect) (set : list timer) : Prop := {
  af_config : config s' = config s;
  af_creds : creds s' = creds s;
  af_auth : authState_creds s' = authState_creds s;
  af_calls : calls s' = calls s ++ new;
  af_flush : EvFlush ∈ new -> didStartBuffer s = true;
  af_buffer : didStartBuffer s' = true -> didStartBuffer s = true \/ EvBuffer ∈ new;
  af_timers : timers s' = timers s ++ set;
  af_backoff : Forall backoff_timer set;
  af_heap : forall l, l <> creds s -> heap s' !! l = heap s !! l;
  af_fields : forall old, heap s !! creds s = Some old ->
    exists merged, heap s' !! creds s = Some merged /\ dom old ⊆ dom merged
}.

(** [needle] occurs in [hay]. *)
Definition occurs_in (needle hay : string) : Prop :=
  exists before after, hay = before +:+ needle +:+ after.

End Scripts.

(** The calls [makeSocket] makes for the secure endpoint, and a script for
    the socket it returns: the connection is announced with buffering, the
    transport opens, two tags are drawn around a rate-limit error, the offline
    notification arrives and the credentials get a new name. *)
Definition example_made : list effect :=
  [NewWebSocketClient wss_endpoint; WsConnect; MakeEventBuffer; GenerateKeyPair;
   MakeNoiseHandler (Some [Byte.x08; Byte.x0c]); AddTransactionCapability;
   MakeSignalRepository].

Definition example_update : gmap string value :=
  {[ "me" := VContact {| c_id := "1@s.whatsapp.net"; c_name := Some "Grace" |} ]}.

Definition example_script : list action :=
  [FireAnnounce true; TransportOpens; CallGenerateMessageTag;
   CallOnUnexpectedError (ErrString "429") "decode" (UploadSettles None);
   CallGenerateMessageTag;
   FireOffline (Node "ib" [] [Node "offline" [] []]);
   FireCredsUpdate example_update SendDone].

(* ===================================================================== *)
(** * Part II: properties                                                  *)
(* ===================================================================== *)

(** ** Message tags *)

Example tags_first_three :
  tags 3 (new_tagger "3EB0.") = ["3EB0.1"; "3EB0.2"; "3EB0.3"].
Proof. reflexivity. Qed.

(** [tags] lists the tags [nth_tag] numbers. *)
Lemma tags_lookup (n : nat) (t : tagger) (k : nat) :
  (k < n)%nat -> tags n t !! k = Some (nth_tag t (N.of_nat k)).
Proof.
  revert t k. induction n as [|n IH]; intros t k Hk; [lia|].
  destruct k as [|k]; [done|]. cbn [tags generateMessageTag lookup list_lookup].
  rewrite IH by lia. f_equal. unfold nth_tag, after_calls. do 2 f_equal.
  rewrite Nat2N.inj_succ, N.iter_succ_r. done.
Qed.

Lemma after_calls_succ k t :
  after_calls (N.succ k) t = snd (generateMessageTag (after_calls k t)).
Proof. unfold after_calls. by rewrite N.iter_succ. Qed.

Lemma after_calls_uqTagId k t : uqTagId (after_calls k t) = uqTagId t.
Proof.
  induction k as [|k IH] using N.peano_ind; [done|].
  by rewrite after_calls_succ.
Qed.

(** The counter after [k] calls: it has advanced by [k], up to [2^53]. *)
Lemma after_calls_epoch k t :
  epoch t = 1 -> epoch (after_calls k t) = N.min (1 + k) MAX_EXACT.
Proof.
  intros Ht. induction k as [|k IH] using N.peano_ind.
  - cbn. rewrite Ht. unfold MAX_EXACT. done.
  - rewrite after_calls_succ. cbn. rewrite IH. unfold js_incr.
    case_decide; lia.
Qed.

Lemma nth_tag_eq k t :
  epoch t = 1 -> nth_tag t k = uqTagId t +:+ pretty (N.min (1 + k) MAX_EXACT).
Proof.
  intros Ht. unfold nth_tag. cbn.
  by rewrite after_calls_uqTagId, after_calls_epoch.
Qed.

(** C1, as amended: on a fresh handle the first [n <= 2^53] calls return the
    prefix followed by the decimal numerals of 1, 2, ..., n (call [k],
    counted from 0, returns the numeral of [k + 1]), so these tags are
    pairwise distinct and their epoch suffixes increase by one per call. *)
Theorem generateMessageTag_distinct (t : tagger) (n : N) :
  epoch t = 1 ->
  n <= MAX_EXACT ->
  (forall k, k < n -> nth_tag t k = uqTagId t +:+ pretty (k + 1)) /\
  (forall i j, i < n -> j < n -> nth_tag t i = nth_tag t j -> i = j).
Proof.
  intros Ht Hn.
  assert (Hk : forall k, k < n -> nth_tag t k = uqTagId t +:+ pretty (k + 1)).
  { intros k Hlt. rewrite nth_tag_eq by done. do 2 f_equal. lia. }
  split; [exact Hk|].
  intros i j Hi Hj. rewrite !Hk by done. intros Heq.
  apply (inj (String.app (uqTagId t))) in Heq.
  apply (inj pretty) in Heq. lia.
Qed.

Lemma generateMessageTag_distinct_witness :
  (forall k, k < 3 -> nth_tag (new_tagger "3EB0.") k = "3EB0." +:+ pretty (k + 1)) /\
  (forall i j, i < 3 -> j < 3 ->
     nth_tag (new_tagger "3EB0.") i = nth_tag (new_tagger "3EB0.") j -> i = j).
Proof.
  apply (generateMessageTag_distinct (new_tagger "3EB0.") 3).
  - reflexivity.
  - unfold MAX_EXACT. lia.
Defined.

(** C1, as stated, fails: once the counter has reached [2^53] it stays
    there, and two successive calls of one handle return the same tag. *)
Lemma generateMessageTag_repeats :
  let t := new_tagger "3EB0." in
  ~ (forall i j, i <> j -> nth_tag t i <> nth_tag t j) /\
  nth_tag t (2 ^ 53) <> uqTagId t +:+ pretty (2 ^ 53 + 1).
Proof.
  cbv zeta. split.
  - intros Hclaim. apply (Hclaim (2 ^ 53 - 1) (2 ^ 53)); [lia|].
    rewrite !nth_tag_eq by done. do 2 f_equal.
  - rewrite nth_tag_eq by done. intros Heq.
    apply (inj (String.app _)) in Heq. apply (inj pretty) in Heq.
    unfold MAX_EXACT in Heq. lia.
Qed.

(** ** [makeSocket] *)

Section MakeSocket.
Context `{Collaborators}.

(** The getter [protocol] never returns ['wss']: its result ends in a
    colon. *)
Lemma protocol_not_wss (u : URL) : String.eqb (protocol u) "wss" = false.
Proof.
  apply String.eqb_neq. unfold protocol.
  destruct (scheme u) as [|a [|b [|c [|d r]]]]; cbn; discriminate.
Qed.

Lemma protocol_tcp (u : URL) : protocol u = "tcp:" <-> scheme u = "tcp".
Proof.
  unfold protocol. split; [|intros ->; done].
  destruct (scheme u) as [|a [|b [|c [|d r]]]]; vm_compute; try congruence.
  intros Heq. exfalso. injection Heq as _ _ _ _ Hr. by destruct r.
Qed.

(** C2, as amended: when the mobile flag is set or the endpoint's protocol
    is ['tcp:'], [makeSocket] throws before it makes a single call: no client
    is made and [connect()] is not called.  What it throws, for an endpoint
    that has passed through line 23 (a [URL], or a string [new URL]
    accepts), is the Boom with status [loggedOut]. *)
Theorem makeSocket_rejects_mobile_and_tcp (config : SocketConfig) (w : world) :
  (mobile config = true \/
   exists url, resolve_url (waWebSocketUrl config) = Some url /\ protocol url = "tcp:") ->
  (exists e, makeSocket config w = ([], Throw e)) /\
  (is_Some (resolve_url (waWebSocketUrl config)) ->
   makeSocket config w =
     ([], Throw (Boom "Mobile API is not supported anymore" DisconnectReason_loggedOut))).
Proof.
  intros Hbad. unfold makeSocket.
  destruct (resolve_url (waWebSocketUrl config)) as [url|] eqn:Hurl.
  - assert (Hguard : mobile config || String.eqb (protocol url) "tcp:" = true).
    { destruct Hbad as [->|(url' & [= <-] & ->)]; [done|].
      rewrite String.eqb_refl. apply orb_true_r. }
    rewrite Hguard. eauto.
  - split; [eauto|]. intros [? [=]].
Qed.

End MakeSocket.

Lemma makeSocket_rejects_mobile_and_tcp_witness :
  @makeSocket stand_in (example_config tcp_endpoint false None) example_world =
    ([], Throw (Boom "Mobile API is not supported anymore" 401)).
Proof.
  apply (@makeSocket_rejects_mobile_and_tcp stand_in
           (example_config tcp_endpoint false None) example_world).
  - right. exists tcp_endpoint. split; reflexivity.
  - exists tcp_endpoint. reflexivity.
Defined.

(** C2, as stated, fails when the mobile flag is set and the endpoint is a
    string [new URL] rejects: line 23 throws its [TypeError] before the guard
    of line 24 is reached, so what is thrown is not the Boom. *)
Lemma makeSocket_mobile_without_scheme :
  parse_url "wss://web.whatsapp.com/ws/chat" = Some wss_endpoint /\
  parse_url "web.whatsapp.com/ws/chat" = None /\
  @makeSocket stand_in mobile_config_without_scheme example_world =
    ([], Throw (TypeError "Invalid URL")) /\
  @makeSocket stand_in mobile_config_without_scheme example_world <>
    ([], Throw (Boom "Mobile API is not supported anymore" 401)).
Proof. split_and!; [reflexivity..|discriminate]. Qed.

(** The endpoint handed to the client is the configured one: the guard of
    line 27 compares [url.protocol] with ['wss'] and so never holds. *)
Lemma makeSocket_url_unchanged `{Collaborators} (config : SocketConfig) (w : world)
    (made : list effect) (s : sock) :
  makeSocket config w = (made, Ok s) ->
  exists url, resolve_url (waWebSocketUrl config) = Some url /\
    made !! 0%nat = Some (NewWebSocketClient url).
Proof.
  unfold makeSocket. destruct (resolve_url _) as [url|]; [|done].
  destruct (_ || _); [done|]. rewrite protocol_not_wss.
  intros [= <- _]. eauto.
Qed.

(** The state a new socket starts in: the counter at [1], no buffering
    started, and [creds] an alias of [authState.creds]. *)
Lemma makeSocket_initial `{Collaborators} (config : SocketConfig) (w : world)
    (made : list effect) (s : sock) :
  makeSocket config w = (made, Ok s) ->
  tagging s = new_tagger (w_prefix w) /\ didStartBuffer s = false /\
  creds s = authState_creds s /\ calls s = made /\
  made !! 1%nat = Some WsConnect.
Proof.
  unfold makeSocket. destruct (resolve_url _) as [url|]; [|done].
  destruct (_ || _); [done|]. by intros [= <- <-].
Qed.

(** C6, at an endpoint with the secure scheme and credentials with routing
    info: the client gets the URL without an 'ED' parameter, although the
    routing info is there and reaches the noise handler. *)
Example makeSocket_drops_routing_info :
  routingInfo_of example_creds = Some [Byte.x08; Byte.x0c] /\
  @makeSocket stand_in (example_config wss_endpoint false None) example_world =
    ([NewWebSocketClient wss_endpoint; WsConnect; MakeEventBuffer; GenerateKeyPair;
      MakeNoiseHandler (Some [Byte.x08; Byte.x0c]); AddTransactionCapability;
      MakeSignalRepository],
     Ok (example_new_sock None)).
Proof. split; vm_compute; reflexivity. Qed.

(** ** [onUnexpectedError] *)

Ltac run_M :=
  cbv [mbind mret M_bind M_ret perform react modify gets when throw setTimeout];
  cbn [fst snd].

Section OnUnexpectedError.
Context `{Collaborators}.

Lemma Math_min_le (a : Z) (x : num) : x <> NaN -> num_le (Math_min a x) a.
Proof. destruct x; cbn; try done. lia. Qed.

Lemma backoff_or_default_not_NaN (c : SocketConfig) : backoff_or_default c <> NaN.
Proof.
  unfold backoff_or_default.
  destruct (backoffDelayMs c) as [[z| | |]|]; cbn; try done. by case_match.
Qed.

Lemma backoff_or_default_documented (c : SocketConfig) :
  backoffDelayMs c <> Some (Fin 0) -> backoffDelayMs c <> Some NaN ->
  Math_min 30000 (backoff_or_default c) = documented_backoff c.
Proof.
  unfold backoff_or_default, documented_backoff.
  destruct (backoffDelayMs c) as [[z| | |]|]; cbn; try done.
  destruct (Z.eqb_spec z 0) as [->|]; cbn; done.
Qed.

(** C3, as amended: a rate-limit error sets one timer, with the empty
    callback and the delay [min(30000, base)], where the base is the
    configured value unless that is unset, [0] or [NaN], in which case it is
    [5000].  The delay is at most 30000 whatever is configured, and it is the
    documented one unless [0] or [NaN] is configured. *)
Theorem onUnexpectedError_backoff (s : sock) (err : js_error) (msg : string)
    (up : upload_outcome) (text : string) :
  error_text err = Some text ->
  is_rate_limit (toLowerCase text) = true ->
  let wait := Math_min 30000 (backoff_or_default (config s)) in
  (onUnexpectedError err msg up s).1 = Ok tt /\
  timers (onUnexpectedError err msg up s).2 =
    timers s ++ [Timer (now s) wait EmptyCallback] /\
  num_le wait 30000 /\
  (backoffDelayMs (config s) <> Some (Fin 0) ->
   backoffDelayMs (config s) <> Some NaN ->
   wait = documented_backoff (config s)).
Proof.
  intros Htext Hrate wait.
  assert (num_le wait 30000) by apply Math_min_le, backoff_or_default_not_NaN.
  pose proof (backoff_or_default_documented (config s)).
  unfold onUnexpectedError. rewrite Htext, Hrate.
  destruct (is_bad_mac _); [destruct up as [?|[[?|?]|]]|]; run_M; cbn; done.
Qed.

(** C5, as amended: for an error of which line 81 gets a text,
    [onUnexpectedError] returns normally and leaves the transport as it is.  On a MAC mismatch it calls
    [uploadPreKeysToServerIfRequired(true)], and a rejection of that call
    ends in a warning written by a promise reaction.  On a text that shows
    neither a MAC mismatch nor a rate limit the one thing it does is to log
    the error. *)
Theorem onUnexpectedError_recovers (s : sock) (err : js_error) (msg : string)
    (up : upload_outcome) (text : string) :
  error_text err = Some text ->
  let message := toLowerCase text in
  let s' := (onUnexpectedError err msg up s).2 in
  (onUnexpectedError err msg up s).1 = Ok tt /\
  ws s' = ws s /\
  (is_bad_mac message = true ->
   UploadPreKeysToServerIfRequired true ∈ calls s' /\
   forall e, up = UploadSettles (Some (Rejected e)) ->
     reactions s' = reactions s ++ [Log warn (LogReuploadFailed e)]) /\
  (is_bad_mac message = false -> is_rate_limit message = false ->
   s' = set_calls (fun l => l ++ [Log error (LogUnexpected err msg)]) s).
Proof.
  intros Htext message s'. subst s'. unfold onUnexpectedError.
  rewrite Htext. fold message.
  destruct (is_bad_mac message), (is_rate_limit message);
    destruct up as [?|[[?|?]|]]; run_M; cbn; split_and!; try done.
  all: intros _; split; [set_solver|congruence].
Qed.

(** [sendRawMessage] reads the transport and the noise handler, nothing
    else. *)
Lemma sendRawMessage_frame (data : bytes) (o : send_outcome) (s1 s2 : sock) :
  ws s1 = ws s2 -> noise s1 = noise s2 ->
  (sendRawMessage data o s1).1 = (sendRawMessage data o s2).1 /\
  exists new, calls (sendRawMessage data o s1).2 = calls s1 ++ new /\
              calls (sendRawMessage data o s2).2 = calls s2 ++ new.
Proof.
  intros Hws Hnoise. unfold sendRawMessage. run_M. rewrite Hws.
  destruct (isOpen (ws s2)); cbn.
  - rewrite Hnoise. destruct (noise_encodeFrame _ _) as [e|[frame n']]; cbn.
    + split; [done|]. exists []. by rewrite !app_nil_r.
    + split; [done|]. by exists [WsSend frame].
  - split; [done|]. exists []. by rewrite !app_nil_r.
Qed.

Lemma onUnexpectedError_keeps_transport (s : sock) (err : js_error) (msg : string)
    (up : upload_outcome) :
  ws (onUnexpectedError err msg up s).2 = ws s /\
  noise (onUnexpectedError err msg up s).2 = noise s.
Proof.
  unfold onUnexpectedError. run_M.
  destruct (error_text err) as [text|]; [|done].
  destruct (is_bad_mac _), (is_rate_limit _); destruct up as [?|[[?|?]|]]; done.
Qed.

(** C4, what the code does: a send issued after [onUnexpectedError], at any
    time [t] on the clock, settles the same way and makes the same calls as
    a send issued without the error; the timer set on a rate limit changes
    nothing for it. *)
Theorem sendRawMessage_ignores_backoff (s : sock) (err : js_error) (msg : string)
    (up : upload_outcome) (t : N) (data : bytes) (o : send_outcome) :
  let s' := set_now t (onUnexpectedError err msg up s).2 in
  (sendRawMessage data o s').1 = (sendRawMessage data o s).1 /\
  exists new, calls (sendRawMessage data o s').2 = calls s' ++ new /\
              calls (sendRawMessage data o s).2 = calls s ++ new.
Proof.
  intros s'. destruct (onUnexpectedError_keeps_transport s err msg up).
  by apply sendRawMessage_frame.
Qed.

End OnUnexpectedError.

(** C3, as stated, fails for a configured base of [0]: the documented delay
    is [min(30000, 0) = 0], the timer is set to [5000]. *)
Lemma onUnexpectedError_backoff_zero :
  let s := example_sock (Some (Fin 0)) in
  let s' := (@onUnexpectedError stand_in (ErrString "HTTP 429 Too Many Requests")
               "decode" (UploadSettles None) s).2 in
  documented_backoff (config s) = Fin 0 /\
  timers s' = [Timer 0 (Fin 5000) EmptyCallback] /\
  timers s' <> [Timer 0 (documented_backoff (config s)) EmptyCallback].
Proof. vm_compute. split_and!; [reflexivity|reflexivity|discriminate]. Qed.

Lemma onUnexpectedError_backoff_witness :
  let s := example_sock (Some (Fin 60000)) in
  timers (@onUnexpectedError stand_in (ErrString "Rate Limit hit") "decode"
            (UploadSettles None) s).2 =
    [Timer 0 (Fin 30000) EmptyCallback].
Proof.
  intros s.
  apply (@onUnexpectedError_backoff stand_in s (ErrString "Rate Limit hit") "decode"
           (UploadSettles None) "Rate Limit hit"); reflexivity.
Defined.

Lemma onUnexpectedError_recovers_witness :
  let s := example_sock None in
  (@onUnexpectedError stand_in
     (ErrObject (ErrorObj FUndefined (FString "Bad MAC") (Some "Error: Bad MAC"))) "decode"
     (UploadSettles (Some (Rejected (TypeError "offline")))) s).1 = Ok tt.
Proof.
  intros s.
  apply (@onUnexpectedError_recovers stand_in s
           (ErrObject (ErrorObj FUndefined (FString "Bad MAC") (Some "Error: Bad MAC"))) "decode"
           (UploadSettles (Some (Rejected (TypeError "offline")))) "Bad MAC").
  reflexivity.
Defined.

(** C5, as stated, fails for an error of which line 81 gets no text: handed
    [undefined], or an object whose message is the number 429,
    [onUnexpectedError] logs and then throws a [TypeError], although neither
    value shows a MAC mismatch or a rate limit in a message. *)
Lemma onUnexpectedError_throws_without_text :
  let s := example_sock None in
  @onUnexpectedError stand_in ErrFalsy "decode" (UploadSettles None) s =
    (Throw (TypeError "toLowerCase"),
     set_calls (fun l => l ++ [Log error (LogUnexpected ErrFalsy "decode")]) s) /\
  (@onUnexpectedError stand_in
     (ErrObject (ErrorObj FUndefined (FOther true "429") (Some "[object Object]")))
     "decode" (UploadSettles None) s).1 = Throw (TypeError "toLowerCase") /\
  (@onUnexpectedError stand_in ErrFalsy "decode" (UploadSettles None) s).1 <> Ok tt.
Proof. split_and!; [reflexivity..|discriminate]. Qed.

(** C4, at a rate-limit error followed at once by a send: the frame goes to
    the transport while the timer of 5000 ms, set at time 0, is pending. *)
Example send_inside_backoff_window :
  let s := (@onUnexpectedError stand_in (ErrString "429") "decode"
              (UploadSettles None) (example_sock None)).2 in
  timers s = [Timer 0 (Fin 5000) EmptyCallback] /\
  now s = 0 /\
  (@sendRawMessage stand_in [Byte.x01] SendDone s).1 = Ok (Fulfilled tt) /\
  last (calls (@sendRawMessage stand_in [Byte.x01] SendDone s).2) =
    Some (WsSend [Byte.x01]).
Proof. vm_compute. split_and!; reflexivity. Qed.

(** ** [awaitNextMessage] *)

Section RemoveLast.
Context {A : Type} `{EqDecision A}.
Implicit Types (x : A) (l : list A).

Lemma remove_last_not_in x l : x ∉ l -> remove_last x l = l.
Proof.
  induction l as [|y l IH]; [done|]. intros Hx. cbn.
  apply not_elem_of_cons in Hx as [Hxy Hxl].
  rewrite decide_False by done. by rewrite decide_False.
Qed.

Lemma filter_remove_last (P : A -> Prop) `{forall x, Decision (P x)} x l :
  filter P (remove_last x l) =
    if decide (P x) then remove_last x (filter P l) else filter P l.
Proof.
  induction l as [|y l IH]; [by case_decide|]. cbn [remove_last].
  destruct (decide (x ∈ l)) as [Hin|Hnin].
  - rewrite !filter_cons, IH. destruct (decide (P x)) as [HPx|HPx].
    + destruct (decide (P y)); [|done]. cbn.
      rewrite decide_True; [done|]. by apply list_elem_of_filter.
    + done.
  - destruct (decide (x = y)) as [<-|Hxy].
    + rewrite filter_cons. destruct (decide (P x)); [|done]. cbn.
      assert (x ∉ filter P l) by (rewrite list_elem_of_filter; tauto).
      rewrite decide_False by done. by rewrite decide_True.
    + destruct (decide (P x)); [|done].
      rewrite remove_last_not_in; [done|].
      rewrite list_elem_of_filter. set_solver.
Qed.

End RemoveLast.

Section AwaitNextMessage.
Context `{Collaborators}.

Lemma settle_call r w : w_call (settle r w) = w_call w.
Proof. unfold settle. by destruct (w_result w). Qed.

Lemma settle_settled r w : w_result (settle r w) <> None.
Proof. unfold settle. by destruct (w_result w) eqn:E; cbn; rewrite ?E. Qed.

Lemma settle_pending r w : w_result w = None -> w_result (settle r w) = Some r.
Proof. unfold settle. by intros ->. Qed.

Lemma settle_done r r' w : w_result w = Some r' -> settle r w = w.
Proof. unfold settle. by intros ->. Qed.

Lemma settle_flags r w :
  w_timer (settle r w) = w_timer w /\ w_finally (settle r w) = w_finally w.
Proof. unfold settle. by destruct (w_result w). Qed.

Lemma call_listener_other a w l :
  ~ own (w_call w) ("", l) -> call_listener a w l = w.
Proof.
  unfold own. cbn. intros Hl. destruct l as [c|c|n]; cbn; [| |done].
  - rewrite decide_False; [done|]. intros ->. tauto.
  - rewrite decide_False; [done|]. intros ->. tauto.
Qed.

Lemma call_listener_call a w l : w_call (call_listener a w l) = w_call w.
Proof.
  destruct l; cbn; [| |done]; case_decide; by rewrite ?settle_call.
Qed.

(** An event reaches the wait through its own closures only. *)
Lemma emit_own (event : string) a (h : list (string * listener)) w :
  foldl (call_listener a) w (filter (fun p => p.1 = event) h).*2 =
  foldl (call_listener a) w
    (filter (fun p => p.1 = event) (filter (own (w_call w)) h)).*2.
Proof.
  revert w. induction h as [|[e l] h IH]; intros w; [done|].
  rewrite (filter_cons (own _)).
  destruct (decide (own (w_call w) (e, l))) as [Hown|Hown].
  - rewrite !filter_cons. cbn. case_decide; cbn; [|done].
    rewrite IH. by rewrite call_listener_call.
  - rewrite !filter_cons. cbn. case_decide; cbn; [|done].
    rewrite call_listener_other by done. apply IH.
Qed.

(** What one event does to a pending wait with its listeners attached. *)
Lemma emit_attached (event : string) a c w :
  filter (own (w_call w)) (handlers c) = registered (w_call w) ->
  foldl (call_listener a) w (listeners_of event c) =
    if String.eqb event "frame" then settle (Fulfilled a) w
    else if String.eqb event "close" || String.eqb event "error"
         then settle (Rejected (mapWebSocketError a)) w
         else w.
Proof.
  intros Hreg. unfold listeners_of. rewrite emit_own, Hreg.
  unfold registered. rewrite !filter_cons, filter_nil. cbn.
  destruct (String.eqb_spec event "frame") as [->|Hf];
    [|destruct (String.eqb_spec event "close") as [->|Hc];
      [|destruct (String.eqb_spec event "error") as [->|He]]].
  all: repeat (case_decide; try congruence); cbn.
  all: by rewrite ?decide_True.
Qed.

Lemma own_other call ev n : ~ own call (ev, other_listener n).
Proof. unfold own. cbn. intros [|]; discriminate. Qed.

Lemma registered_off call :
  remove_last ("error", onClose call)
    (remove_last ("close", onClose call)
       (remove_last ("frame", onOpen call) (registered call))) = [].
Proof.
  unfold registered. cbn.
  repeat (first [rewrite decide_True by set_solver
                |rewrite decide_False by set_solver]; cbn).
  done.
Qed.

Lemma do_step_inv call st e : wait_inv call st -> wait_inv call (do_step st e).
Proof.
  destruct st as [c w]. intros [Hcall Hatt Hdet Htimer]. cbn in *.
  destruct e as [event a| | |event n|event n]; cbn.
  - (* Emit *)
    destruct (w_finally w) eqn:Hfin.
    + destruct (Hdet eq_refl) as [Hnone Hres].
      unfold listeners_of. rewrite emit_own, Hcall, Hnone. cbn.
      split; cbn; rewrite ?Hfin; auto.
    + rewrite emit_attached by (rewrite Hcall; auto).
      repeat case_match; split; cbn;
        rewrite ?settle_call, ?(proj1 (settle_flags _ _)),
                ?(proj2 (settle_flags _ _)), ?Hfin; auto; try done.
      all: intros Hn; by apply settle_settled in Hn.
  - (* TimerFires *)
    unfold timer_fires. destruct (w_timer w) eqn:Ht; [|split; cbn; rewrite ?Ht; auto].
    split; cbn; rewrite ?settle_call, ?(proj2 (settle_flags _ _)); cbn; auto.
    + intros Hfin. destruct (Hdet Hfin) as [? Hres]. split; [done|].
      apply settle_settled.
    + intros Hn. by apply settle_settled in Hn.
  - (* Microtasks *)
    destruct (w_result w) as [r|] eqn:Hres; [|split; cbn; rewrite ?Hres; auto].
    destruct (w_finally w) eqn:Hfin; [split; cbn; rewrite ?Hres, ?Hfin; auto|].
    split; cbn; rewrite ?Hres; try done.
    intros _. split; [|done]. rewrite Hcall.
    rewrite !filter_remove_last, !decide_True by (unfold own; cbn; auto).
    rewrite Hatt by done. apply registered_off.
  - (* OtherOn *)
    split; cbn; auto; rewrite filter_app, filter_cons, filter_nil,
      decide_False, app_nil_r by apply own_other; auto.
  - (* OtherOff *)
    split; cbn; auto; rewrite filter_remove_last,
      decide_False by apply own_other; auto.
Qed.

Lemma run_inv call steps st : wait_inv call st -> wait_inv call (run steps st).
Proof.
  revert st. induction steps as [|e steps IH]; intros st Hinv; [done|].
  apply IH. by apply do_step_inv.
Qed.

Lemma run_app steps more st : run (steps ++ more) st = run more (run steps st).
Proof. unfold run. apply foldl_app. Qed.

Lemma call_listener_done a w l r : w_result w = Some r -> call_listener a w l = w.
Proof.
  intros Hr. destruct l; cbn; [| |done]; case_decide; eauto using settle_done.
Qed.

Lemma emit_done a w ls r :
  w_result w = Some r -> foldl (call_listener a) w ls = w.
Proof.
  intros Hr. induction ls as [|l ls IH]; [done|]. cbn.
  by rewrite (call_listener_done _ _ _ r).
Qed.

(** A settled promise keeps its outcome. *)
Lemma do_step_settled st e r :
  w_result st.2 = Some r -> w_result (do_step st e).2 = Some r.
Proof.
  destruct st as [c w]. cbn. intros Hr.
  destruct e as [event a| | |event n|event n]; cbn; try done.
  - by rewrite (emit_done _ _ _ r).
  - unfold timer_fires. destruct (w_timer w); [|done]. cbn.
    by rewrite (settle_done _ r).
  - rewrite Hr. by destruct (w_finally w).
Qed.

Lemma run_settled steps st r :
  w_result st.2 = Some r -> w_result (run steps st).2 = Some r.
Proof.
  revert st. induction steps as [|e steps IH]; intros st Hr; [done|].
  apply IH. by apply do_step_settled.
Qed.

(** Once the [finally] callback has run, it has run. *)
Lemma do_step_finally st e :
  w_finally st.2 = true -> w_finally (do_step st e).2 = true.
Proof.
  destruct st as [c w]. cbn. intros Hf.
  destruct e as [event a| | |event n|event n]; cbn; try done.
  - generalize (listeners_of event c). intros ls. revert w Hf.
    induction ls as [|l ls IH]; intros w Hf; [done|]. cbn. apply IH.
    destruct l; cbn; [| |done]; case_decide; try done;
      by rewrite (proj2 (settle_flags _ _)).
  - unfold timer_fires. destruct (w_timer w); [|done]. cbn.
    by rewrite (proj2 (settle_flags _ _)).
  - destruct (w_result w); [|done]. by rewrite Hf.
Qed.

Lemma run_finally_stays steps st :
  w_finally st.2 = true -> w_finally (run steps st).2 = true.
Proof.
  revert st. induction steps as [|e steps IH]; intros st Hf; [done|].
  apply IH. by apply do_step_finally.
Qed.

Lemma microtasks_finally st r :
  w_result st.2 = Some r -> w_finally (do_step st Microtasks).2 = true.
Proof.
  destruct st as [c w]. cbn. intros ->. by destruct (w_finally w) eqn:Hf.
Qed.

(** A pending wait settles at the first frame, close, error or timeout. *)
Lemma run_first_outcome call steps st :
  wait_inv call st -> w_result st.2 = None ->
  w_result (run steps st).2 = first_outcome steps.
Proof.
  revert st. induction steps as [|e steps IH]; intros [c w] Hinv Hnone; [done|].
  pose proof (do_step_inv call (c, w) e Hinv) as Hinv'.
  destruct Hinv as [Hcall Hatt Hdet Htimer]. cbn in *.
  assert (Hfin : w_finally w = false).
  { destruct (w_finally w); [|done]. by destruct (Hdet eq_refl). }
  destruct e as [event a| | |event n|event n]; cbn [first_outcome].
  - cbn in Hinv' |- *. rewrite emit_attached in Hinv' |- * by (rewrite Hcall; auto).
    destruct (String.eqb event "frame").
    { apply run_settled. by apply settle_pending. }
    destruct (String.eqb event "close" || String.eqb event "error").
    { apply run_settled. by apply settle_pending. }
    by apply IH.
  - apply run_settled. cbn. unfold timer_fires. rewrite (Htimer Hnone). cbn.
    by apply settle_pending.
  - apply IH; [done|]. cbn. by rewrite Hnone.
  - by apply IH.
  - by apply IH.
Qed.

Lemma filter_none_all {A} (P : A -> Prop) `{forall x, Decision (P x)} (l : list A) :
  filter P l = [] -> filter (fun x => ~ P x) l = l.
Proof.
  induction l as [|x l IH]; [done|]. rewrite !filter_cons.
  destruct (decide (P x)); [done|]. intros Hl.
  rewrite decide_True by done. by rewrite IH.
Qed.

Lemma filter_none {A} (P : A -> Prop) `{forall x, Decision (P x)} (l : list A) :
  Forall (fun x => ~ P x) l -> filter P l = [].
Proof.
  induction 1 as [|x l Hx Hl IH]; [done|].
  by rewrite filter_cons, decide_False.
Qed.

Lemma filter_all {A} (P : A -> Prop) `{forall x, Decision (P x)} (l : list A) :
  Forall P l -> filter P l = l.
Proof.
  induction 1 as [|x l Hx Hl IH]; [done|].
  rewrite filter_cons, decide_True by done. by rewrite IH.
Qed.

(** The steps of other code act on the listeners of other code as if the
    wait were not there. *)
Lemma run_others call steps st :
  wait_inv call st ->
  filter (fun p => ~ own call p) (handlers (run steps st).1) =
    others steps (filter (fun p => ~ own call p) (handlers st.1)).
Proof.
  revert st. induction steps as [|e steps IH]; intros [c w] Hinv; [done|].
  pose proof (do_step_inv call (c, w) e Hinv) as Hinv'.
  change (run (e :: steps) (c, w)) with (run steps (do_step (c, w) e)).
  rewrite IH by done. destruct Hinv as [Hcall _ _ _]. cbn in Hcall.
  destruct e as [event a| | |event n|event n]; cbn [others]; f_equal; cbn.
  - destruct (w_result w); [|done]. destruct (w_finally w); [done|]. cbn.
    rewrite Hcall, !filter_remove_last.
    rewrite !decide_False; [done| | |]; unfold own; cbn; tauto.
  - rewrite filter_app, filter_cons, filter_nil.
    by rewrite decide_True by apply own_other.
  - rewrite filter_remove_last. by rewrite decide_True by apply own_other.
Qed.

Lemma Forall_filter_not {A} (P : A -> Prop) `{forall x, Decision (P x)} (l : list A) :
  Forall (fun x => ~ P x) (filter (fun x => ~ P x) l).
Proof. apply Forall_forall. intros x. rewrite list_elem_of_filter. tauto. Qed.

(** C7: on a closed transport [awaitNextMessage] fails with the Boom of
    status [connectionClosed].  On an open one it registers its three
    listeners, and then, whatever happens: the promise holds the outcome of
    the first frame (fulfilled with it), close or error (rejected with the
    mapped error) or timeout, and holds it for good; and from the draining
    of the microtask queue that follows the settlement on, the transport has
    exactly the listeners other code registered, none of the three. *)
Theorem awaitNextMessage_settles_once (call : N) (c : ws_client) :
  (isOpen c = false ->
   awaitNextMessage call c =
     inl (Boom "Connection Closed" DisconnectReason_connectionClosed)) /\
  (isOpen c = true ->
   Forall (fun p => ~ own call p) (handlers c) ->
   exists st0,
     awaitNextMessage call c = inr st0 /\
     handlers st0.1 = handlers c ++ registered call /\
     forall steps,
       w_result (run steps st0).2 = first_outcome steps /\
       (forall r more,
          w_result (run steps st0).2 = Some r ->
          w_result (run (steps ++ more) st0).2 = Some r /\
          w_finally (run (steps ++ Microtasks :: more) st0).2 = true) /\
       (w_finally (run steps st0).2 = true ->
        handlers (run steps st0).1 = others steps (handlers c) /\
        Forall (fun p => ~ own call p) (handlers (run steps st0).1))).
Proof.
  unfold awaitNextMessage. split; [by intros ->|]. intros -> Hfresh. cbn.
  eexists. split; [done|]. cbn. split; [by rewrite <- !app_assoc|].
  match goal with |- context [run _ ?st] => set (st0 := st) end.
  assert (Hinv0 : wait_inv call st0).
  { split; cbn; try done. intros _.
    rewrite !filter_app, (filter_none _ _ Hfresh). cbn.
    rewrite !decide_True; [done| | |]; unfold own; cbn; tauto. }
  intros steps. split_and!.
  - by apply (run_first_outcome call).
  - intros r more Hr. rewrite !run_app. split; [by apply run_settled|].
    change (run (Microtasks :: more) ?st) with (run more (do_step st Microtasks)).
    apply run_finally_stays. by apply (microtasks_finally _ r).
  - intros Hfin. pose proof (run_inv call steps st0 Hinv0) as [_ _ Hdet _].
    destruct (Hdet Hfin) as [Hown _].
    pose proof (run_others call steps st0 Hinv0) as Hoth.
    rewrite (filter_none_all _ _ Hown) in Hoth.
    assert (Hc : filter (fun p => ~ own call p) (handlers st0.1) = handlers c).
    { cbn. rewrite !filter_app, (filter_all _ _ Hfresh). cbn.
      rewrite !decide_False; [by rewrite !app_nil_r| | |]; unfold own; cbn; tauto. }
    rewrite Hc in Hoth. split; [done|].
    rewrite <- (filter_none_all _ _ Hown). apply Forall_filter_not.
Qed.

End AwaitNextMessage.

Lemma awaitNextMessage_settles_once_witness :
  exists st0,
    @awaitNextMessage stand_in 1 example_client = inr st0 /\
    handlers st0.1 = handlers example_client ++ registered 1.
Proof.
  destruct (proj2 (@awaitNextMessage_settles_once stand_in 1 example_client))
    as (st0 & Hst0 & Hreg & _).
  - reflexivity.
  - repeat constructor. apply own_other.
  - exists st0. split; assumption.
Defined.

(** A frame, then a close in the same job, then the microtasks: the promise
    is fulfilled with the frame and the transport is back to the listener it
    had. *)
Example awaitNextMessage_frame_then_close :
  match @awaitNextMessage stand_in 1 example_client with
  | inr st0 =>
      let st := @run stand_in
                  [Emit "frame" (ArgFrame [Byte.x2a]); Emit "close" (ArgError ErrFalsy);
                   Microtasks] st0 in
      w_result st.2 = Some (Fulfilled (ArgFrame [Byte.x2a])) /\
      handlers st.1 = [("CB:ib,,offline", other_listener 0)]
  | inl _ => False
  end.
Proof. vm_compute. split; reflexivity. Qed.

(** ** The offline notification *)

Section Handlers.
Context `{Collaborators}.

(** The flag [didStartBuffer] is false in a new socket, and the callback that
    sets it is the one that calls [ev.buffer()]. *)
Lemma announce_connecting_buffers (sendMsg : bool) (s : sock) :
  didStartBuffer (announce_connecting sendMsg s).2 = sendMsg || didStartBuffer s /\
  (EvBuffer ∈ drop (length (calls s)) (calls (announce_connecting sendMsg s).2)
   <-> sendMsg = true).
Proof.
  unfold announce_connecting. destruct sendMsg; run_M; cbn.
  - split; [done|]. rewrite <- app_assoc, drop_app_length. set_solver.
  - split; [done|]. rewrite drop_app_length. set_solver.
Qed.

(** The handler of 'CB:ib,,offline' in terms of the flag: it logs the count,
    calls [ev.flush()] if and only if [didStartBuffer] is set, and ends by
    emitting 'connection.update' with [receivedPendingNotifications: true]. *)
Lemma on_offline_by_flag (node : BinaryNode) (s : sock) :
  let s' := (on_offline node s).2 in
  let new := drop (length (calls s)) (calls s') in
  (on_offline node s).1 = Ok tt /\
  calls s' = calls s ++ new /\
  new = [Log info (LogHandledOffline (offline_count node))] ++
        (if didStartBuffer s then [EvFlush; Log trace LogFlushed] else []) ++
        [EvEmit "connection.update" [("receivedPendingNotifications", VBool true)]] /\
  (EvFlush ∈ new <-> didStartBuffer s = true) /\
  last new =
    Some (EvEmit "connection.update" [("receivedPendingNotifications", VBool true)]).
Proof.
  cbv zeta. unfold on_offline. run_M. cbn.
  destruct (didStartBuffer s) eqn:Hd; cbn.
  - rewrite <- !app_assoc, drop_app_length. cbn. split_and!; try done. set_solver.
  - rewrite <- !app_assoc, drop_app_length. cbn. split_and!; try done. set_solver.
Qed.

(** ** Credential updates *)

(** [sendNode] returns a promise; it touches the noise handler and the log
    of calls, nothing else. *)
Lemma sendNode_effect (frame : BinaryNode) (o : send_outcome) (s : sock) :
  exists sent s1 new,
    sendNode frame o s = (Ok sent, s1) /\
    calls s1 = calls s ++ new /\
    reactions s1 = reactions s /\ heap s1 = heap s /\ creds s1 = creds s /\
    authState_creds s1 = authState_creds s /\ ws s1 = ws s /\
    (forall bytes n',
       isOpen (ws s) = true ->
       noise_encodeFrame (noise s) (encodeBinaryNode frame) = inr (bytes, n') ->
       WsSend bytes ∈ new) /\
    (isOpen (ws s) = false ->
     sent = Rejected (Boom "Connection Closed" DisconnectReason_connectionClosed)).
Proof.
  unfold sendNode, sendRawMessage. run_M.
  destruct (String.eqb _ "trace"); cbn;
    (destruct (isOpen (ws s)) eqn:Hopen; cbn;
     [destruct (noise_encodeFrame _ _) as [e|[bytes n']] eqn:Henc; cbn|]).
  all: do 3 eexists; split; [reflexivity|]; cbn.
  all: rewrite <- ?app_assoc.
  all: split_and!; try done; try (by rewrite app_nil_r).
  all: try (intros ? ? _ [= <- <-]; set_solver).
  all: by intros ? ? [=].
Qed.

(** C9: the handler of 'creds.update' returns normally and writes every
    property of the update into the object [creds] refers to: afterwards that
    object has the update's value at every key of the update and its old
    value at every other key; [creds] and [authState.creds] refer to the
    object they referred to before; no other object has changed; and the
    accessor [user] returns the [me] of the merged object. *)
Theorem on_creds_update_merges (update : gmap string value) (o : send_outcome)
    (s : sock) (old : gmap string value) :
  heap s !! creds s = Some old ->
  authState_creds s = creds s ->
  let s' := (on_creds_update update o s).2 in
  let merged := Object_assign old update in
  (on_creds_update update o s).1 = Ok tt /\
  creds s' = creds s /\ authState_creds s' = authState_creds s /\
  heap s' !! creds s' = Some merged /\
  (forall k v, update !! k = Some v -> merged !! k = Some v) /\
  (forall k, update !! k = None -> merged !! k = old !! k) /\
  (forall l, l <> creds s -> heap s' !! l = heap s !! l) /\
  user s' = default VUndefined (merged !! "me").
Proof.
  intros Hold Halias. cbv zeta. unfold on_creds_update, user. run_M.
  assert (Hmerge : forall s1 : sock,
    heap s1 = heap s -> creds s1 = creds s -> authState_creds s1 = authState_creds s ->
    let s' := set_heap (alter (fun target => Object_assign target update) (creds s1)) s1 in
    creds s' = creds s /\ authState_creds s' = authState_creds s /\
    heap s' !! creds s' = Some (Object_assign old update) /\
    (forall l, l <> creds s -> heap s' !! l = heap s !! l) /\
    default VUndefined (heap s' !! authState_creds s' ≫= (.!! "me")) =
      default VUndefined (Object_assign old update !! "me")).
  { intros s1 Hh Hc Ha. cbn. rewrite Hh, Hc, Ha, Halias.
    rewrite lookup_alter_eq, Hold. cbn. split_and!; try done.
    intros l Hl. by rewrite lookup_alter_ne. }
  assert (Hkeys :
    (forall k v, update !! k = Some v -> Object_assign old update !! k = Some v) /\
    (forall k, update !! k = None -> Object_assign old update !! k = old !! k)).
  { unfold Object_assign. split.
    - intros k v Hk. by apply lookup_union_Some_l.
    - intros k Hk. by apply lookup_union_r. }
  destruct Hkeys as [Hk1 Hk2].
  destruct (bool_decide _); cbn.
  - destruct (sendNode_effect (Node "presence" [("name", me_name update)] []) o
                (set_calls (fun l => l ++ [Log debug (LogPushName (me_name update))]) s))
      as (sent & s1 & new & -> & _ & _ & Hh & Hc & Ha & _).
    destruct sent; cbn; destruct (Hmerge s1 Hh Hc Ha) as (? & ? & ? & ? & ?);
      split_and!; done.
  - destruct (Hmerge s eq_refl eq_refl eq_refl) as (? & ? & ? & ? & ?).
    split_and!; done.
Qed.

(** C10: the handler calls [sendNode] with the presence node that carries
    the update's name if and only if that name differs from the name in
    [creds]: when the names agree it makes no call at all, and when they
    differ it logs the name and sends the node, which reaches the transport
    if that is open and the frame can be encoded.  A rejected send ends in a
    warning written by a promise reaction.  In every case the handler returns
    normally and the update is merged into the credentials. *)
Theorem on_creds_update_presence (update : gmap string value) (o : send_outcome)
    (s : sock) :
  let name := me_name update in
  let presence := Node "presence" [("name", name)] [] in
  let s' := (on_creds_update update o s).2 in
  (on_creds_update update o s).1 = Ok tt /\
  heap s' = alter (fun target => Object_assign target update) (creds s) (heap s) /\
  (creds_name s = name -> calls s' = calls s /\ reactions s' = reactions s) /\
  (creds_name s <> name ->
   exists sent s1,
     sendNode presence o
       (set_calls (fun l => l ++ [Log debug (LogPushName name)]) s) = (Ok sent, s1) /\
     calls s' = calls s1 /\
     reactions s' = reactions s ++
       match sent with
       | Rejected err => [Log warn (LogPresenceError err)]
       | Fulfilled _ => []
       end /\
     (forall bytes n',
        isOpen (ws s) = true ->
        noise_encodeFrame (noise s) (encodeBinaryNode presence) = inr (bytes, n') ->
        WsSend bytes ∈ calls s')).
Proof.
  cbv zeta. unfold on_creds_update. run_M.
  destruct (bool_decide_reflect (creds_name s ≠ me_name update)) as [Hne|Heq]; cbn.
  - destruct (sendNode_effect (Node "presence" [("name", me_name update)] []) o
                (set_calls (fun l => l ++ [Log debug (LogPushName (me_name update))]) s))
      as (sent & s1 & new & -> & Hcalls & Hreact & Hh & Hc & Ha & Hws & Hsend & _).
    assert (Hsent : forall bytes n', isOpen (ws s) = true ->
      noise_encodeFrame (noise s)
        (encodeBinaryNode (Node "presence" [("name", me_name update)] [])) =
        inr (bytes, n') -> WsSend bytes ∈ calls s1).
    { intros bytes n' Hopen Henc. rewrite Hcalls.
      apply elem_of_app. right. by apply (Hsend bytes n'). }
    destruct sent; cbn; rewrite Hh, Hc; split_and!; try done.
    all: intros _; do 2 eexists; split; [reflexivity|]; cbn.
    all: rewrite Hreact; cbn; rewrite ?app_nil_r; done.
  - split_and!; done.
Qed.

End Handlers.

Lemma on_creds_update_merges_witness :
  let s := example_sock None in
  let update : gmap string value := {[ "registered" := VBool true ]} in
  let s' := (@on_creds_update stand_in update SendDone s).2 in
  heap s' !! creds s' = Some (Object_assign example_creds update).
Proof.
  intros s update s'.
  apply (@on_creds_update_merges stand_in update SendDone s example_creds);
    reflexivity.
Defined.

(** The credentials hold the name "Ada" and the update has no [me]: the
    presence node goes out with its [name] attribute undefined, and the
    update is merged. *)
Example on_creds_update_without_name :
  let s := example_sock None in
  let update : gmap string value := {[ "registered" := VBool true ]} in
  let s' := (@on_creds_update stand_in update SendDone s).2 in
  last (calls s') =
    Some (WsSend (String.list_byte_of_string "<presence name=undefined/>")) /\
  (heap s' !! creds s' ≫= (.!! "registered")) = Some (VBool true) /\
  @user stand_in s' = VContact {| c_id := "1@s.whatsapp.net"; c_name := Some "Ada" |}.
Proof. vm_compute. split_and!; reflexivity. Qed.

(** ** More on [makeSocket] *)

(** [makeSocket] returns a socket exactly when line 23 yields a URL, the
    mobile flag is off and the scheme is not tcp: every other scheme is let
    through.  It then has made one client, for that URL, and called
    [connect()] once, right after. *)
Theorem makeSocket_accepts `{Collaborators} (config : SocketConfig) (w : world) :
  ((exists made s, makeSocket config w = (made, Ok s)) <->
   (exists url, resolve_url (waWebSocketUrl config) = Some url /\
      mobile config = false /\ scheme url <> "tcp")) /\
  (forall made s, makeSocket config w = (made, Ok s) ->
     exists url rest,
       resolve_url (waWebSocketUrl config) = Some url /\
       made = NewWebSocketClient url :: WsConnect :: rest /\
       (WsConnect ∉ rest) /\ (forall u, NewWebSocketClient u ∉ rest)).
Proof.
  unfold makeSocket. destruct (resolve_url _) as [url|] eqn:Hurl.
  - rewrite protocol_not_wss.
    destruct (mobile config) eqn:Hm; cbn.
    + split; [|by intros ? ? [=]]. split; [by intros (? & ? & [=])|].
      by intros (? & _ & ? & _).
    + destruct (String.eqb_spec (protocol url) "tcp:") as [Htcp|Htcp].
      * split; [|by intros ? ? [=]]. split; [by intros (? & ? & [=])|].
        intros (url' & [= <-] & _ & Hs). by apply protocol_tcp in Htcp.
      * split.
        -- split; [|eauto]. intros _. exists url. split_and!; try done.
           intros Hs. by apply protocol_tcp in Hs.
        -- intros made s [= <- _]. do 2 eexists. split_and!; try done.
           ++ set_solver.
           ++ intros u. set_solver.
  - split; [|by intros ? ? [=]]. split; [by intros (? & ? & [=])|].
    by intros (? & [=] & _).
Qed.

(** ** More on sending *)

Section Sending.
Context `{Collaborators}.

(** [sendRawMessage] never throws; it returns a promise.  A frame goes to
    the transport exactly when the transport is open and the noise handler
    encodes the data, and only then does the noise handler advance; in every
    other case the socket is left as it was.  The promise is fulfilled exactly
    when, on top of that, [ws.send] reports success. *)
Theorem sendRawMessage_outcome (data : bytes) (o : send_outcome) (s : sock) :
  exists p,
    (sendRawMessage data o s).1 = Ok p /\
    let s' := (sendRawMessage data o s).2 in
    let sent := exists frame n',
      isOpen (ws s) = true /\ noise_encodeFrame (noise s) data = inr (frame, n') in
    (forall frame n',
       isOpen (ws s) = true -> noise_encodeFrame (noise s) data = inr (frame, n') ->
       s' = set_calls (fun l => l ++ [WsSend frame]) (set_noise n' s)) /\
    (~ sent -> s' = s) /\
    (p = Fulfilled tt <-> sent /\ o = SendDone) /\
    (isOpen (ws s) = false ->
     p = Rejected (Boom "Connection Closed" DisconnectReason_connectionClosed)) /\
    (forall e, isOpen (ws s) = true -> noise_encodeFrame (noise s) data = inl e ->
     p = Rejected e).
Proof.
  unfold sendRawMessage. run_M.
  destruct (isOpen (ws s)) eqn:Hopen; cbn.
  - destruct (noise_encodeFrame (noise s) data) as [e|[frame n']] eqn:Henc; cbn.
    + eexists. split; [done|]. split_and!; try done.
      * split; [done|]. by intros [(? & ? & _ & [=]) _].
      * by intros ? _ [= ->].
    + eexists. split; [done|]. split_and!; try done.
      * by intros ? ? _ [= <- <-].
      * intros Hn. destruct Hn. eauto.
      * destruct o; cbn; split; try done; try (by intros [_ [=]]).
        intros _. eauto.
  - eexists. split; [done|]. split_and!; try done.
    split; [done|]. by intros [(? & ? & [=] & _) _].
Qed.

End Sending.

(** ** More on [onUnexpectedError] *)

Section Classification.
Context `{Collaborators}.

Lemma append_nil_l (s : string) : "" +:+ s = s.
Proof. reflexivity. Qed.

Lemma append_cons (c : ascii) (s t : string) : String c s +:+ t = String c (s +:+ t).
Proof. reflexivity. Qed.

Lemma prefix_spec (needle hay : string) :
  String.prefix needle hay = true <-> exists after, hay = needle +:+ after.
Proof.
  revert hay. induction needle as [|a needle IH]; intros hay.
  - destruct hay; cbn; split; eauto.
  - destruct hay as [|b hay]; cbn.
    + split; [done|]. by intros [after [=]].
    + destruct (ascii_dec a b) as [<-|Hab].
      * rewrite IH. split.
        -- intros [after ->]. by exists after.
        -- intros [after [= ->]]. by exists after.
      * split; [done|]. intros [after [= ? _]]. done.
Qed.

(** [includes] is the test for an occurrence. *)
Lemma includes_spec (needle hay : string) :
  includes needle hay = true <-> occurs_in needle hay.
Proof.
  unfold occurs_in. split.
  - induction hay as [|c hay IH]; cbn [includes]; intros Hi;
      apply orb_true_iff in Hi as [Hp|Hi]; try done.
    + apply prefix_spec in Hp as [after ->]. by exists "", after.
    + apply prefix_spec in Hp as [after ->]. by exists "", after.
    + destruct (IH Hi) as (before & after & ->).
      by exists (String c before), after.
  - intros (before & after & ->).
    induction before as [|c before IH].
    + rewrite append_nil_l.
      assert (Hp : String.prefix needle (needle +:+ after) = true)
        by (apply prefix_spec; eauto).
      destruct (needle +:+ after); cbn [includes]; by rewrite Hp.
    + rewrite append_cons. cbn [includes]. rewrite IH. apply orb_true_r.
Qed.

(** For an error with a text, the two recoveries are taken exactly on their
    patterns, each independently of the other: [uploadPreKeysToServerIfRequired]
    is called if and only if the lowercased text has an occurrence of
    'bad mac' or occurrences of both 'mac' and 'invalid', and a timer is set if
    and only if it has an occurrence of '429' or of 'rate limit'. *)
Theorem onUnexpectedError_classifies (s : sock) (err : js_error) (msg : string)
    (up : upload_outcome) (text : string) :
  error_text err = Some text ->
  let message := toLowerCase text in
  let s' := (onUnexpectedError err msg up s).2 in
  (UploadPreKeysToServerIfRequired true ∈ drop (length (calls s)) (calls s') <->
   occurs_in "bad mac" message \/
   (occurs_in "mac" message /\ occurs_in "invalid" message)) /\
  (timers s' <> timers s <->
   occurs_in "429" message \/ occurs_in "rate limit" message).
Proof.
  intros Htext message s'. subst s'.
  rewrite <- !includes_spec, <- andb_true_iff, <- !orb_true_iff.
  fold (is_bad_mac message). fold (is_rate_limit message).
  unfold onUnexpectedError. rewrite Htext. fold message.
  assert (Hgrow : forall (l : list timer) t, l ++ [t] <> l).
  { intros l t Hl. apply (f_equal length) in Hl. rewrite length_app in Hl.
    cbn in Hl. lia. }
  destruct (is_bad_mac message), (is_rate_limit message);
    destruct up as [?|[[?|?]|]]; run_M; cbn;
    rewrite <- ?app_assoc, drop_app_length; cbn.
  all: split; (split; [try done|try done]).
  all: try (intros _; set_solver).
  all: try (intros _; apply Hgrow).
  all: try (intros Hin; set_solver).
  all: by intros [].
Qed.



End Classification.

Lemma onUnexpectedError_classifies_witness :
  let s := example_sock None in
  let s' := (@onUnexpectedError stand_in (ErrString "Invalid MAC (429)") "decode"
               (UploadSettles None) s).2 in
  (UploadPreKeysToServerIfRequired true ∈ drop (length (calls s)) (calls s') <->
   occurs_in "bad mac" "invalid mac (429)" \/
   (occurs_in "mac" "invalid mac (429)" /\ occurs_in "invalid" "invalid mac (429)")) /\
  (timers s' <> timers s <->
   occurs_in "429" "invalid mac (429)" \/ occurs_in "rate limit" "invalid mac (429)").
Proof.
  intros s s'.
  apply (@onUnexpectedError_classifies stand_in s (ErrString "Invalid MAC (429)")
           "decode" (UploadSettles None) "Invalid MAC (429)").
  reflexivity.
Defined.

(** ** The socket at work *)

Section AtWork.
Context `{Collaborators}.

Ltac frame_field :=
  first
    [ done
    | rewrite <- !app_assoc; reflexivity
    | symmetry; apply app_nil_r
    | apply Forall_nil_2
    | intros; left; done
    | intros; right; set_solver
    | set_solver ].

Ltac frame_state := do 2 eexists; split; cbn; [frame_field..| |]; eauto.

Lemma sendRawMessage_framed (data : bytes) (o : send_outcome) (s : sock) :
  exists new set, act_frame s (sendRawMessage data o s).2 new set.
Proof.
  unfold sendRawMessage. run_M. destruct (isOpen (ws s)); cbn;
    [destruct (noise_encodeFrame _ _) as [?|[? ?]]; cbn|]; frame_state.
Qed.

Lemma sendNode_framed (frame : BinaryNode) (o : send_outcome) (s : sock) :
  exists new set, act_frame s (sendNode frame o s).2 new set.
Proof.
  unfold sendNode, sendRawMessage. run_M.
  destruct (String.eqb _ "trace"); cbn; (destruct (isOpen (ws s)); cbn;
    [destruct (noise_encodeFrame _ _) as [?|[? ?]]; cbn|]); frame_state.
Qed.

Lemma backoff_timer_set (s : sock) :
  Forall backoff_timer
    [Timer (now s) (Math_min 30000 (backoff_or_default (config s))) EmptyCallback].
Proof.
  repeat constructor. cbn. apply Math_min_le, backoff_or_default_not_NaN.
Qed.

Lemma onUnexpectedError_framed (err : js_error) (msg : string) (up : upload_outcome)
    (s : sock) :
  exists new set, act_frame s (onUnexpectedError err msg up s).2 new set.
Proof.
  pose proof (backoff_timer_set s).
  unfold onUnexpectedError. destruct (error_text err) as [text|].
  - destruct (is_bad_mac _), (is_rate_limit _); destruct up as [?|[[?|?]|]];
      run_M; cbn; frame_state.
  - run_M. cbn. frame_state.
Qed.

Lemma on_creds_update_heap (update : gmap string value) (o : send_outcome) (s : sock) :
  let s' := (on_creds_update update o s).2 in
  heap s' = alter (fun target => Object_assign target update) (creds s) (heap s) /\
  creds s' = creds s /\ timers s' = timers s /\ config s' = config s /\
  authState_creds s' = authState_creds s /\ didStartBuffer s' = didStartBuffer s /\
  tagging s' = tagging s /\
  exists new, calls s' = calls s ++ new /\ (EvFlush ∉ new) /\ (EvBuffer ∉ new).
Proof.
  cbv zeta. unfold on_creds_update, sendNode, sendRawMessage. run_M.
  destruct (bool_decide _); cbn.
  - destruct (String.eqb _ "trace"); cbn; (destruct (isOpen (ws s)); cbn;
      [destruct (noise_encodeFrame _ _) as [?|[? ?]]; cbn; [|destruct o; cbn]|]).
    all: split_and!; try done.
    all: eexists; split; [rewrite <- ?app_assoc; reflexivity|set_solver].
  - split_and!; try done. exists []. rewrite app_nil_r. set_solver.
Qed.

Lemma on_creds_update_framed (update : gmap string value) (o : send_outcome) (s : sock) :
  exists new set, act_frame s (on_creds_update update o s).2 new set.
Proof.
  destruct (on_creds_update_heap update o s)
    as (Hheap & Hcreds & Htimers & Hconfig & Hauth & Hdid & _ & new & Hcalls & Hf & Hb).
  exists new, []. split.
  - done.
  - done.
  - done.
  - done.
  - intros Hin. by destruct Hf.
  - rewrite Hdid. auto.
  - by rewrite Htimers, app_nil_r.
  - constructor.
  - intros l Hl. rewrite Hheap. by apply lookup_alter_ne.
  - intros old Hold. rewrite Hheap, lookup_alter_eq, Hold. cbn.
    eexists. split; [done|]. unfold Object_assign. rewrite dom_union. set_solver.
Qed.

(** Every action leaves the configuration and the two references to the
    credentials alone, appends to the log, sets backoff timers only, and
    changes no object but the credentials, to which it only adds. *)
Lemma act_framed (s : sock) (a : action) :
  exists new set, act_frame s (act s a) new set.
Proof.
  destruct a; cbn [act].
  - frame_state.
  - apply sendRawMessage_framed.
  - apply sendNode_framed.
  - apply onUnexpectedError_framed.
  - unfold announce_connecting. destruct sendMsg; run_M; cbn; frame_state.
  - unfold on_offline. run_M. cbn. destruct (didStartBuffer s) eqn:Hd; cbn;
      frame_state.
  - apply on_creds_update_framed.
  - frame_state.
  - frame_state.
  - frame_state.
Qed.

Lemma run_script_cons (a : action) (script : list action) (s : sock) :
  run_script (a :: script) s = run_script script (act s a).
Proof. reflexivity. Qed.

Lemma buffered_step (s : sock) (a : action) :
  (didStartBuffer s = true -> EvBuffer ∈ calls s) /\
  (forall i, calls s !! i = Some EvFlush ->
     exists j, (j < i)%nat /\ calls s !! j = Some EvBuffer) ->
  (didStartBuffer (act s a) = true -> EvBuffer ∈ calls (act s a)) /\
  (forall i, calls (act s a) !! i = Some EvFlush ->
     exists j, (j < i)%nat /\ calls (act s a) !! j = Some EvBuffer).
Proof.
  intros [Hdid Hflush]. destruct (act_framed s a) as (new & set & F).
  rewrite (af_calls _ _ _ _ F). split.
  - intros Hd. apply elem_of_app.
    destruct (af_buffer _ _ _ _ F Hd); auto.
  - intros i Hi. apply lookup_app_Some in Hi as [Hi|[Hlen Hi]].
    + destruct (Hflush i Hi) as (j & Hj & Hb). exists j. split; [done|].
      by apply lookup_app_l_Some.
    + apply list_elem_of_lookup_2 in Hi.
      apply list_elem_of_lookup_1 in Hdid as [j Hj];
        [|by apply (af_flush _ _ _ _ F)].
      exists j. split; [|by apply lookup_app_l_Some].
      apply lookup_lt_Some in Hj. lia.
Qed.

(** The flag and the call go together: an action sets [didStartBuffer]
    when it calls [ev.buffer()], a set flag stays set, and a flag that is set
    after an action was set before or the action called [ev.buffer()]. *)
Lemma act_buffers (s : sock) (a : action) :
  exists new,
    calls (act s a) = calls s ++ new /\
    (EvBuffer ∈ new -> didStartBuffer (act s a) = true) /\
    (didStartBuffer s = true -> didStartBuffer (act s a) = true) /\
    (didStartBuffer (act s a) = true -> didStartBuffer s = true \/ EvBuffer ∈ new).
Proof.
  assert (Hsend : forall data o, exists new,
    calls (sendRawMessage data o s).2 = calls s ++ new /\ (EvBuffer ∉ new) /\
    didStartBuffer (sendRawMessage data o s).2 = didStartBuffer s).
  { intros data o. unfold sendRawMessage. run_M. destruct (isOpen (ws s)); cbn;
      [destruct (noise_encodeFrame _ _) as [?|[? ?]]; cbn|].
    all: first [exists []; rewrite app_nil_r; split_and!; [done|set_solver|done]
               |eexists; split_and!; [done|set_solver|done]]. }
  assert (Hnode : forall frame o, exists new,
    calls (sendNode frame o s).2 = calls s ++ new /\ (EvBuffer ∉ new) /\
    didStartBuffer (sendNode frame o s).2 = didStartBuffer s).
  { intros frame o. unfold sendNode, sendRawMessage. run_M.
    destruct (String.eqb _ "trace"); cbn; (destruct (isOpen (ws s)); cbn;
      [destruct (noise_encodeFrame _ _) as [?|[? ?]]; cbn|]).
    all: rewrite <- ?app_assoc.
    all: first [exists []; rewrite app_nil_r; split_and!; [done|set_solver|done]
               |eexists; split_and!; [done|set_solver|done]]. }
  assert (Herr : forall err msg up, exists new,
    calls (onUnexpectedError err msg up s).2 = calls s ++ new /\ (EvBuffer ∉ new) /\
    didStartBuffer (onUnexpectedError err msg up s).2 = didStartBuffer s).
  { intros err msg up. unfold onUnexpectedError.
    destruct (error_text err) as [text|];
      [destruct (is_bad_mac _), (is_rate_limit _); destruct up as [?|[[?|?]|]]|].
    all: run_M; cbn; rewrite <- ?app_assoc.
    all: eexists; split_and!; [done|set_solver|done]. }
  assert (Hkeep : forall s' new,
    calls s' = calls s ++ new -> EvBuffer ∉ new -> didStartBuffer s' = didStartBuffer s ->
    exists new,
      calls s' = calls s ++ new /\
      (EvBuffer ∈ new -> didStartBuffer s' = true) /\
      (didStartBuffer s = true -> didStartBuffer s' = true) /\
      (didStartBuffer s' = true -> didStartBuffer s = true \/ EvBuffer ∈ new)).
  { intros s' new Hc Hn Hd. exists new. rewrite Hd. split_and!; auto. }
  destruct a; cbn [act].
  - apply (Hkeep _ []); [by rewrite app_nil_r|set_solver|done].
  - destruct (Hsend data o) as (new & ? & ? & ?). by apply (Hkeep _ new).
  - destruct (Hnode frame o) as (new & ? & ? & ?). by apply (Hkeep _ new).
  - destruct (Herr err msg up) as (new & ? & ? & ?). by apply (Hkeep _ new).
  - unfold announce_connecting. destruct sendMsg.
    + run_M. cbn. eexists. rewrite <- app_assoc. split_and!; [done|done|done|].
      intros _. right. set_solver.
    + apply (Hkeep _ [EvEmit "connection.update"
                        [("connection", VStr "connecting");
                         ("receivedPendingNotifications", VBool false);
                         ("qr", VUndefined)]]); [done|set_solver|done].
  - destruct (on_offline_by_flag node s) as (_ & Hc & Hnew & _).
    apply (Hkeep _ _ Hc).
    + rewrite Hnew. destruct (didStartBuffer s); cbn;
        rewrite !not_elem_of_cons; split_and!; try done; apply not_elem_of_nil.
    + unfold on_offline. run_M. cbn.
      destruct (didStartBuffer s) eqn:Hd; cbn; by rewrite ?Hd.
  - destruct (on_creds_update_heap update o s)
      as (_ & _ & _ & _ & _ & Hd & _ & new & Hc & _ & Hb).
    by apply (Hkeep _ new).
  - apply (Hkeep _ []); [by rewrite app_nil_r|set_solver|done].
  - apply (Hkeep _ []); [by rewrite app_nil_r|set_solver|done].
  - apply (Hkeep _ []); [by rewrite app_nil_r|set_solver|done].
Qed.

(** On a socket that has run any script since its creation, [didStartBuffer]
    is set if and only if [ev.buffer()] has been called. *)
Lemma started_iff_buffered (config : SocketConfig) (w : world)
    (made : list effect) (s0 : sock) (script : list action) :
  makeSocket config w = (made, Ok s0) ->
  didStartBuffer (run_script script s0) = true <->
  EvBuffer ∈ calls (run_script script s0).
Proof.
  intros Hmake.
  assert (Hinit : didStartBuffer s0 = true <-> EvBuffer ∈ calls s0).
  { revert Hmake. unfold makeSocket. destruct (resolve_url _); [|done].
    destruct (_ || _); [done|]. intros [= _ <-]. cbn. split; [done|set_solver]. }
  clear Hmake. revert s0 Hinit.
  induction script as [|a script IH]; intros s0 Hinit; [done|].
  rewrite run_script_cons. apply IH.
  destruct (act_buffers s0 a) as (new & -> & Hnew & Hstay & Hwas).
  rewrite elem_of_app. split.
  - intros Hd. destruct (Hwas Hd); [left; by apply Hinit|by right].
  - intros [Hin|Hin]; [apply Hstay; by apply Hinit|by apply Hnew].
Qed.

(** C8: on a socket that has run any script since its creation, the handler
    of 'CB:ib,,offline' calls [ev.flush()] if and only if [ev.buffer()] has
    been called on this socket before; in both cases it returns normally and
    ends by emitting 'connection.update' with
    [receivedPendingNotifications: true], after the flush if there is one. *)
Theorem on_offline_flushes_started_buffer (config : SocketConfig) (w : world)
    (made : list effect) (s0 : sock) (script : list action) (node : BinaryNode) :
  makeSocket config w = (made, Ok s0) ->
  let s := run_script script s0 in
  let s' := (on_offline node s).2 in
  let new := drop (length (calls s)) (calls s') in
  let update :=
    EvEmit "connection.update" [("receivedPendingNotifications", VBool true)] in
  (on_offline node s).1 = Ok tt /\
  calls s' = calls s ++ new /\
  (EvFlush ∈ new <-> EvBuffer ∈ calls s) /\
  (EvBuffer ∈ calls s ->
   new = [Log info (LogHandledOffline (offline_count node)); EvFlush;
          Log trace LogFlushed; update]) /\
  (EvBuffer ∉ calls s ->
   new = [Log info (LogHandledOffline (offline_count node)); update]).
Proof.
  intros Hmake s s' new update.
  pose proof (started_iff_buffered config w made s0 script Hmake) as Hiff.
  fold s in Hiff.
  destruct (on_offline_by_flag node s) as (Hr & Hc & Hnew & Hflush & _).
  fold s' new in Hc, Hnew, Hflush.
  split_and!; [done|done| | |].
  - by rewrite Hflush.
  - intros Hb. apply Hiff in Hb. by rewrite Hnew, Hb.
  - intros Hb. rewrite Hnew. destruct (didStartBuffer s); [|done].
    destruct Hb. by apply Hiff.
Qed.

(** Over every script run on a new socket, every call of [ev.flush()] comes
    after a call of [ev.buffer()]: these closures and handlers never flush an
    event buffer they have not put into buffering before. *)
Theorem flush_follows_buffer (config : SocketConfig) (w : world)
    (made : list effect) (s0 : sock) (script : list action) :
  makeSocket config w = (made, Ok s0) ->
  forall i, calls (run_script script s0) !! i = Some EvFlush ->
    exists j, (j < i)%nat /\ calls (run_script script s0) !! j = Some EvBuffer.
Proof.
  intros Hmake.
  assert (Hinit : (didStartBuffer s0 = true -> EvBuffer ∈ calls s0) /\
    (forall i, calls s0 !! i = Some EvFlush ->
       exists j, (j < i)%nat /\ calls s0 !! j = Some EvBuffer)).
  { revert Hmake. unfold makeSocket. destruct (resolve_url _); [|done].
    destruct (_ || _); [done|]. intros [= _ <-]. cbn. split; [done|].
    intros i Hi. apply list_elem_of_lookup_2 in Hi. set_solver. }
  clear Hmake. revert s0 Hinit.
  induction script as [|a script IH]; intros s0 Hinit; [apply Hinit|].
  rewrite run_script_cons. apply IH. by apply buffered_step.
Qed.

Lemma run_script_credentials (script : list action) (s : sock) :
  config (run_script script s) = config s /\
  creds (run_script script s) = creds s /\
  authState_creds (run_script script s) = authState_creds s /\
  (forall l, l <> creds s -> heap (run_script script s) !! l = heap s !! l) /\
  (forall old, heap s !! creds s = Some old ->
     exists merged, heap (run_script script s) !! creds s = Some merged /\
                    dom old ⊆ dom merged).
Proof.
  revert s. induction script as [|a script IH]; intros s.
  { split_and!; try done. intros old Hold. by exists old. }
  rewrite run_script_cons. destruct (act_framed s a) as (new & set & F).
  destruct (IH (act s a)) as (Hc & Hcr & Ha & Hh & Hf).
  rewrite (af_creds _ _ _ _ F) in Hcr, Hh, Hf. split_and!.
  - by rewrite Hc, (af_config _ _ _ _ F).
  - done.
  - by rewrite Ha, (af_auth _ _ _ _ F).
  - intros l Hl. rewrite Hh by done. by apply (af_heap _ _ _ _ F).
  - intros old Hold.
    destruct (af_fields _ _ _ _ F old Hold) as (mid & Hmid & Hsub).
    destruct (Hf mid Hmid) as (merged & Hmerged & Hsub').
    exists merged. split; [done|]. set_solver.
Qed.

(** Over every script run on a new socket, [creds] and [authState.creds]
    stay the one reference they were at creation, so [user] returns the [me]
    of the object 'creds.update' merges into; the configuration and every
    other object of the heap stay as they were; and the credentials never
    lose a field. *)
Theorem socket_keeps_credentials (config0 : SocketConfig) (w : world)
    (made : list effect) (s0 : sock) (script : list action) :
  makeSocket config0 w = (made, Ok s0) ->
  let s := run_script script s0 in
  let c := auth_creds (auth config0) in
  config s = config0 /\ creds s = c /\ authState_creds s = c /\
  user s = default VUndefined (heap s !! c ≫= (.!! "me")) /\
  (forall l, l <> c -> heap s !! l = w_heap w !! l) /\
  (forall old, w_heap w !! c = Some old ->
     exists merged, heap s !! c = Some merged /\ dom old ⊆ dom merged).
Proof.
  intros Hmake s c.
  assert (Hinit : config s0 = config0 /\ creds s0 = c /\ authState_creds s0 = c /\
                  heap s0 = w_heap w).
  { revert Hmake. unfold makeSocket. destruct (resolve_url _); [|done].
    destruct (_ || _); [done|]. by intros [= _ <-]. }
  destruct Hinit as (Hc0 & Hcr0 & Ha0 & Hh0).
  destruct (run_script_credentials script s0) as (Hc & Hcr & Ha & Hh & Hf).
  fold s in Hc, Hcr, Ha, Hh, Hf. rewrite Hcr0, Hh0 in *.
  split_and!; try congruence; try done.
  unfold user. by rewrite Ha, Ha0.
Qed.

Lemma act_tagging (s : sock) (a : action) :
  is_tag_call a = false -> tagging (act s a) = tagging s.
Proof.
  destruct a; cbn [act is_tag_call]; try done; intros _.
  - unfold sendRawMessage. run_M. destruct (isOpen (ws s)); cbn; [|done].
    by destruct (noise_encodeFrame _ _) as [?|[? ?]].
  - unfold sendNode, sendRawMessage. run_M.
    destruct (String.eqb _ "trace"); cbn; (destruct (isOpen (ws s)); cbn; [|done]);
      by destruct (noise_encodeFrame _ _) as [?|[? ?]].
  - unfold onUnexpectedError. destruct (error_text err); [|done].
    by destruct (is_bad_mac _), (is_rate_limit _); destruct up as [?|[[?|?]|]].
  - unfold announce_connecting. by destruct sendMsg.
  - unfold on_offline. run_M. cbn. by destruct (didStartBuffer s).
  - by destruct (on_creds_update_heap update o s) as (_ & _ & _ & _ & _ & _ & ? & _).
Qed.

Lemma script_tags_tags (script : list action) (s : sock) :
  script_tags script s =
    tags (length (filter (fun a => is_tag_call a = true) script)) (tagging s).
Proof.
  revert s. induction script as [|a script IH]; intros s; [done|].
  cbn [script_tags]. rewrite filter_cons, IH.
  destruct (is_tag_call a) eqn:Ha.
  - by destruct a.
  - rewrite decide_False by done. rewrite act_tagging by done.
    by destruct a.
Qed.

(** Whatever else the socket does between two calls of [generateMessageTag]
    (sends, error handling, events, the transport opening and closing), the
    tags come out as if the calls were made back to back: on a new socket the
    call number [k] (from 0) of a script returns the prefix followed by the
    numeral of [k + 1], as long as that is below [2^53]. *)
Theorem script_tags_count (config : SocketConfig) (w : world)
    (made : list effect) (s0 : sock) (script : list action) :
  makeSocket config w = (made, Ok s0) ->
  let n := length (filter (fun a => is_tag_call a = true) script) in
  script_tags script s0 = tags n (new_tagger (w_prefix w)) /\
  forall k, (k < n)%nat -> N.of_nat k < MAX_EXACT ->
    script_tags script s0 !! k = Some (w_prefix w +:+ pretty (N.of_nat k + 1)).
Proof.
  intros Hmake n.
  assert (Ht : tagging s0 = new_tagger (w_prefix w)).
  { revert Hmake. unfold makeSocket. destruct (resolve_url _); [|done].
    destruct (_ || _); [done|]. by intros [= _ <-]. }
  rewrite script_tags_tags, Ht. fold n. split; [done|].
  intros k Hk Hmax. rewrite tags_lookup by done. rewrite nth_tag_eq by done.
  cbn. do 3 f_equal. lia.
Qed.

End AtWork.

(** ** More on credential updates *)

Section CredentialUpdates.
Context `{Collaborators}.

Lemma me_name_assign (old update : gmap string value) :
  me_name (Object_assign old update) =
    match update !! "me" with
    | Some _ => me_name update
    | None => me_name old
    end.
Proof.
  unfold me_name, Object_assign. rewrite lookup_union.
  by destruct (update !! "me"), (old !! "me").
Qed.

Lemma assign_twice (old update : gmap string value) :
  Object_assign (Object_assign old update) update = Object_assign old update.
Proof.
  unfold Object_assign. by rewrite (assoc_L (∪)), (idemp_L (∪)).
Qed.

(** The name in the credentials after an update: the update's, if the update
    has a [me] field, and the old one otherwise. *)
Lemma creds_name_after (update : gmap string value) (o : send_outcome) (s : sock)
    (old : gmap string value) :
  heap s !! creds s = Some old ->
  creds_name (on_creds_update update o s).2 =
    match update !! "me" with
    | Some _ => me_name update
    | None => creds_name s
    end.
Proof.
  intros Hold. destruct (on_creds_update_heap update o s) as (Hheap & Hcreds & _).
  unfold creds_name. rewrite Hheap, Hcreds, lookup_alter_eq, Hold. cbn.
  apply me_name_assign.
Qed.

Lemma set_heap_same (f : gmap N (gmap string value) -> gmap N (gmap string value))
    (s : sock) :
  f (heap s) = heap s -> set_heap f s = s.
Proof. destruct s. unfold set_heap. cbn. by intros ->. Qed.

(** A 'creds.update' with a [me] field that is delivered a second time does
    nothing at all: no log entry, no presence node, and the credentials stay
    as the first delivery left them. *)
Theorem on_creds_update_repeated (update : gmap string value) (o o' : send_outcome)
    (s : sock) (old : gmap string value) :
  heap s !! creds s = Some old ->
  is_Some (update !! "me") ->
  let s1 := (on_creds_update update o s).2 in
  on_creds_update update o' s1 = (Ok tt, s1).
Proof.
  intros Hold [v Hme] s1.
  pose proof (creds_name_after update o s old Hold) as Hname.
  rewrite Hme in Hname. fold s1 in Hname.
  destruct (on_creds_update_heap update o s) as (Hheap & Hcreds & _).
  fold s1 in Hheap, Hcreds.
  unfold on_creds_update. run_M. rewrite Hname.
  rewrite bool_decide_eq_false_2 by tauto. cbn. f_equal.
  apply set_heap_same.
  rewrite Hheap, Hcreds. apply map_eq. intros l.
  destruct (decide (l = creds s)) as [->|Hl].
  - rewrite !lookup_alter_eq. destruct (heap s !! creds s); [|done]. cbn.
    by rewrite assign_twice.
  - by rewrite !lookup_alter_ne.
Qed.

(** Two updates in a row: afterwards each field of the credentials has the
    value of the second update if that names it, else that of the first if
    that names it, else its old value. *)
Theorem on_creds_update_twice (u1 u2 : gmap string value) (o1 o2 : send_outcome)
    (s : sock) (old : gmap string value) :
  heap s !! creds s = Some old ->
  let s2 := (on_creds_update u2 o2 (on_creds_update u1 o1 s).2).2 in
  exists merged,
    heap s2 !! creds s2 = Some merged /\
    forall k, merged !! k =
      match u2 !! k with
      | Some v => Some v
      | None => match u1 !! k with Some v => Some v | None => old !! k end
      end.
Proof.
  intros Hold s2. subst s2.
  destruct (on_creds_update_heap u1 o1 s) as (Hh1 & Hc1 & _).
  destruct (on_creds_update_heap u2 o2 (on_creds_update u1 o1 s).2) as (Hh2 & Hc2 & _).
  rewrite Hh2, Hc2, Hh1, Hc1, !lookup_alter_eq, Hold. cbn.
  eexists. split; [done|]. intros k. unfold Object_assign.
  rewrite !lookup_union. by destruct (u2 !! k), (u1 !! k), (old !! k).
Qed.

(** An update without a [me] field leaves the name in the credentials as it
    is.  So once the credentials have a name, every such update logs a push
    name of [undefined] and sends a presence node whose [name] is
    [undefined], and the next one will do so again. *)
Theorem on_creds_update_without_me (update : gmap string value) (o : send_outcome)
    (s : sock) (old : gmap string value) (n : string) :
  heap s !! creds s = Some old ->
  update !! "me" = None ->
  creds_name s = Some n ->
  let s' := (on_creds_update update o s).2 in
  creds_name s' = Some n /\
  is_Some (heap s' !! creds s') /\
  calls s' !! length (calls s) = Some (Log debug (LogPushName None)) /\
  (forall bytes n',
     isOpen (ws s) = true ->
     noise_encodeFrame (noise s) (encodeBinaryNode (Node "presence" [("name", None)] []))
       = inr (bytes, n') ->
     WsSend bytes ∈ calls s').
Proof.
  intros Hold Hme Hname s'.
  pose proof (creds_name_after update o s old Hold) as Hafter.
  rewrite Hme in Hafter. fold s' in Hafter.
  destruct (on_creds_update_heap update o s) as (Hheap & Hcreds & _).
  fold s' in Hheap, Hcreds.
  split; [congruence|]. split.
  { rewrite Hheap, Hcreds, lookup_alter_eq, Hold. cbn. eauto. }
  subst s'. unfold on_creds_update. run_M.
  assert (Hnone : me_name update = None) by (unfold me_name; by rewrite Hme).
  rewrite Hnone, Hname. rewrite bool_decide_eq_true_2 by done. cbn.
  destruct (sendNode_effect (Node "presence" [("name", None)] []) o
              (set_calls (fun l => l ++ [Log debug (LogPushName None)]) s))
    as (sent & s1 & new & -> & Hcalls & _ & _ & _ & _ & _ & Hsend & _).
  cbn in Hcalls.
  assert (Hs1 : calls s1 !! length (calls s) = Some (Log debug (LogPushName None)) /\
    forall bytes n', isOpen (ws s) = true ->
      noise_encodeFrame (noise s) (encodeBinaryNode (Node "presence" [("name", None)] []))
        = inr (bytes, n') -> WsSend bytes ∈ calls s1).
  { rewrite Hcalls. split.
    - rewrite <- app_assoc. by rewrite lookup_app_r, Nat.sub_diag by lia.
    - intros bytes n' Hopen Henc. apply elem_of_app. right. by apply (Hsend bytes n'). }
  by destruct sent.
Qed.

End CredentialUpdates.

(** ** More on [awaitNextMessage] *)

Section Listeners.
Context `{Collaborators}.

(** From its start to the run of its [finally] callback, a wait has each of
    its three listeners registered once, whatever events arrive and whatever
    other code registers or removes; the callback runs on a settled promise
    only, and after it none of the three is registered. *)
Theorem awaitNextMessage_listeners (call : N) (c : ws_client)
    (st0 : ws_client * pending_wait) (steps : list step) :
  awaitNextMessage call c = inr st0 ->
  Forall (fun p => ~ own call p) (handlers c) ->
  let st := run steps st0 in
  filter (own call) (handlers st.1) =
    (if w_finally st.2 then [] else registered call) /\
  (w_finally st.2 = true -> w_result st.2 <> None).
Proof.
  unfold awaitNextMessage. destruct (isOpen c); [|done]. cbn [negb].
  intros [= <-] Hfresh. set (st := run steps _).
  assert (Hinv : wait_inv call st).
  { apply run_inv. split; cbn; try done. intros _.
    rewrite !filter_app, (filter_none _ _ Hfresh). cbn.
    rewrite !decide_True; [done| | |]; unfold own; cbn; tauto. }
  destruct Hinv as [_ Hatt Hdet _].
  destruct (w_finally st.2) eqn:Hf.
  - destruct (Hdet eq_refl). split; [done|]. by intros _.
  - split; [by apply Hatt|done].
Qed.

End Listeners.

(** ** The example script *)

Lemma example_makeSocket :
  @makeSocket stand_in (example_config wss_endpoint false None) example_world =
    (example_made, Ok (example_new_sock None)).
Proof. vm_compute. reflexivity. Defined.

(** The script on the example socket: what it leaves in the log, the tags it
    draws, the timer it sets and the credentials it ends with. *)
Example example_script_run :
  let s := run_script example_script (example_new_sock None) in
  drop (length example_made) (calls s) =
    [EvBuffer;
     EvEmit "connection.update"
       [("connection", VStr "connecting");
        ("receivedPendingNotifications", VBool false); ("qr", VUndefined)];
     Log error (LogUnexpected (ErrString "429") "decode");
     Log info (LogBackoff (Fin 5000));
     Log info (LogHandledOffline (Fin 0));
     EvFlush; Log trace LogFlushed;
     EvEmit "connection.update" [("receivedPendingNotifications", VBool true)];
     Log debug (LogPushName (Some "Grace"));
     WsSend (String.list_byte_of_string "<presence name=Grace/>")] /\
  script_tags example_script (example_new_sock None) = ["3EB0.1"; "3EB0.2"] /\
  timers s = [Timer 0 (Fin 5000) EmptyCallback] /\
  @user stand_in s = VContact {| c_id := "1@s.whatsapp.net"; c_name := Some "Grace" |}.
Proof. vm_compute. split_and!; reflexivity. Qed.

Lemma flush_follows_buffer_witness :
  exists j, (j < 12)%nat /\
    calls (run_script example_script (example_new_sock None)) !! j = Some EvBuffer.
Proof.
  apply (@flush_follows_buffer stand_in (example_config wss_endpoint false None)
           example_world example_made (example_new_sock None) example_script
           example_makeSocket 12%nat).
  reflexivity.
Defined.

Lemma socket_keeps_credentials_witness :
  creds (run_script example_script (example_new_sock None)) = 1 /\
  authState_creds (run_script example_script (example_new_sock None)) = 1.
Proof.
  destruct (@socket_keeps_credentials stand_in (example_config wss_endpoint false None)
              example_world example_made (example_new_sock None) example_script
              example_makeSocket) as (_ & Hc & Ha & _).
  split; assumption.
Defined.

Lemma script_tags_count_witness :
  script_tags example_script (example_new_sock None) =
    tags 2 (new_tagger "3EB0.").
Proof.
  apply (@script_tags_count stand_in (example_config wss_endpoint false None)
           example_world example_made (example_new_sock None) example_script).
  exact example_makeSocket.
Defined.

Lemma on_creds_update_repeated_witness :
  let s1 := (@on_creds_update stand_in example_update SendDone (example_sock None)).2 in
  @on_creds_update stand_in example_update SendPending s1 = (Ok tt, s1).
Proof.
  apply (@on_creds_update_repeated stand_in example_update SendDone SendPending
           (example_sock None) example_creds).
  - reflexivity.
  - eexists. reflexivity.
Defined.

Lemma on_creds_update_twice_witness :
  let s2 := (@on_creds_update stand_in example_update SendDone
               (@on_creds_update stand_in {[ "registered" := VBool true ]} SendDone
                  (example_sock None)).2).2 in
  exists merged,
    heap s2 !! creds s2 = Some merged /\
    forall k, merged !! k =
      match example_update !! k with
      | Some v => Some v
      | None =>
          match ({[ "registered" := VBool true ]} : gmap string value) !! k with
          | Some v => Some v
          | None => example_creds !! k
          end
      end.
Proof.
  apply (@on_creds_update_twice stand_in {[ "registered" := VBool true ]}
           example_update SendDone SendDone (example_sock None) example_creds).
  reflexivity.
Defined.

Lemma on_creds_update_without_me_witness :
  let s' := (@on_creds_update stand_in {[ "registered" := VBool true ]} SendDone
               (example_sock None)).2 in
  @creds_name stand_in s' = Some "Ada".
Proof.
  apply (@on_creds_update_without_me stand_in {[ "registered" := VBool true ]}
           SendDone (example_sock None) example_creds "Ada"); reflexivity.
Defined.

Lemma awaitNextMessage_listeners_witness :
  match @awaitNextMessage stand_in 1 example_client with
  | inr st0 =>
      filter (own 1) (handlers (@run stand_in [Emit "frame" (ArgFrame [Byte.x2a])] st0).1)
        = registered 1
  | inl _ => False
  end.
Proof.
  destruct (@awaitNextMessage stand_in 1 example_client) as [e|st0] eqn:Hst0.
  - discriminate Hst0.
  - assert (Hfin : w_finally (@run stand_in [Emit "frame" (ArgFrame [Byte.x2a])] st0).2
                   = false).
    { injection Hst0 as <-. reflexivity. }
    pose proof (@awaitNextMessage_listeners stand_in 1 example_client st0
                  [Emit "frame" (ArgFrame [Byte.x2a])] Hst0) as Hl.
    cbv zeta in Hl. rewrite Hfin in Hl. apply Hl.
    repeat constructor. apply own_other.
Defined.

Lemma on_offline_flushes_started_buffer_witness :
  let s := run_script [FireAnnounce true; TransportOpens] (example_new_sock None) in
  let node := Node "ib" [] [Node "offline" [("count", Some "3")] []] in
  EvFlush ∈ drop (length (calls s)) (calls (@on_offline stand_in node s).2) <->
  EvBuffer ∈ calls s.
Proof.
  intros s node.
  destruct (@on_offline_flushes_started_buffer stand_in
              (example_config wss_endpoint false None) example_world example_made
              (example_new_sock None) [FireAnnounce true; TransportOpens] node
              example_makeSocket) as (_ & _ & Hiff & _).
  exact Hiff.
Defined.
